(** * PromiseQueue: a concurrency-limited, deduplicating job queue

    Shallow embedding of [PromiseQueue.js] (package [@parcel/utils]) and
    proofs about its admission control, deduplication, retry policy and
    cycle handling.

    The queue is an object mutated from a single thread of control; every
    method of the class becomes a function on an explicit [state].  An
    [async] method is split at its [await]: the part before it runs inside
    the caller's turn ([_runJob]), the part after it runs in a later turn
    of its own once the worker's promise has settled ([_runJob_resume]).
    The turns of the event loop are the [event]s of the model. *)

From Stdlib Require Import ZArith Lia.
From stdpp Require Import gmap list strings.

Local Open Scope Z_scope.

(** ** Deferred

    [PromiseQueue.js] imports [makeDeferredWithPromise] and the type
    [Deferred] from [./Deferred]. *)

Module Deferred.

(** Modelled from the spec: the module [./Deferred]
    ([makeDeferredWithPromise], [resolve], [reject]) is missing.  A
    completion handle has exactly three states; a transition out of
    [Pending] happens at most once and later attempts are no-ops.  The
    promises of one program live in a store, a handle is an index into it. *)
Inductive settlement (E : Type) : Type :=
| Pending
| Fulfilled
| Rejected (e : E).
Arguments Pending {E}.
Arguments Fulfilled {E}.
Arguments Rejected {E} e.

Abbreviation handle := nat.

Abbreviation store E := (list (settlement E)).

(** Modelled from the spec: the pair returned by [makeDeferredWithPromise],
    missing with [./Deferred]: the settler and the observer of one and the
    same handle. *)
Record DeferredWithPromise := { deferred : handle; promise : handle }.

(** Modelled from the spec: [makeDeferredWithPromise], missing with
    [./Deferred]; [create()] returns a handle pair for a new pending
    completion. *)
Definition makeDeferredWithPromise {E} (st : store E)
  : store E * DeferredWithPromise :=
  (st ++ [Pending], {| deferred := length st; promise := length st |}).

(** Modelled from the spec: the single transition guard of the settler,
    missing with [./Deferred]; fulfil and reject are each a no-op after the
    first call of either. *)
Definition settle {E} (v : settlement E) (h : handle) (st : store E) : store E :=
  match st !! h with
  | Some Pending => <[h := v]> st
  | _ => st
  end.

(** Modelled from the spec: [deferred.resolve()], missing with
    [./Deferred]. *)
Definition resolve {E} (h : handle) (st : store E) : store E :=
  settle Fulfilled h st.

(** Modelled from the spec: [deferred.reject(err)], missing with
    [./Deferred]. *)
Definition reject {E} (h : handle) (e : E) (st : store E) : store E :=
  settle (Rejected e) h st.

(** Once settled, always settled, with the same value. *)
Definition store_le {E} (st st' : store E) : Prop :=
  forall h w, st !! h = Some w -> w ≠ Pending -> st' !! h = Some w.

End Deferred.

Import Deferred.

(** ** Numbers, exceptions, completions *)

(** [_maxConcurrent] is either the configured limit, an integer, or
    [Infinity]. *)
Inductive number : Type :=
| Finite (z : Z)
| Infinity.

(** [n < m] and [n <= m] for an integer counter against a limit. *)
Definition num_lt (n : Z) (m : number) : bool :=
  match m with
  | Finite z => n <? z
  | Infinity => true
  end.

Definition num_le (n : Z) (m : number) : bool :=
  match m with
  | Finite z => n <=? z
  | Infinity => true
  end.

Inductive exn : Type :=
| TypeError (msg : string)
| NullthrowsError
| AssertionError.

(** How a synchronous call ends. *)
Inductive completion (A : Type) : Type :=
| Normal (a : A)
| Throw (x : exn).
Arguments Normal {A} a.
Arguments Throw {A} x.

(** [PromiseQueueOpts]: both fields are optional. *)
Record PromiseQueueOpts := {
  maxConcurrent : option Z;
  retry : option bool
}.

(** [Job]: both handles come from one [makeDeferredWithPromise]. *)
Record Job := {
  job_deferred : handle;
  job_promise : handle;
  job_retried : bool
}.

(** How the worker's promise settles. *)
Inductive outcome (E : Type) : Type :=
| Resolves
| Rejects (err : E).
Arguments Resolves {E}.
Arguments Rejects {E} err.

Section PromiseQueue.

Context {TFirstArg : Type} `{Countable TFirstArg}.
Context {TRestArgs TErr : Type}.

(** A [_runJob] call suspended at [await this._process(key, ...args)]:
    its parameters and the local [job] it read from the registry. *)
Record activation := {
  act_key : TFirstArg;
  act_args : TRestArgs;
  act_job : Job
}.

(** The fields of the class, followed by what surrounds the object: the
    store of promises, the suspended [_runJob] calls, the log of worker
    invocations, and the rejections of [_runJob]'s own promise, which no
    caller observes.  The worker [_process] is the environment: a call of
    it is an entry of [calls], and the settlement of the promise it
    returned is an [event]. *)
Record state := MkState {
  _deferred : option handle;
  _maxConcurrent : number;
  _numRunning : Z;
  _processing : gmap TFirstArg Job;
  _queue : list (TFirstArg * TRestArgs);
  _retry : bool;
  _runPromise : option handle;
  heap : store TErr;
  inflight : list activation;
  calls : list (TFirstArg * TRestArgs);
  unhandled : list exn
}.

Definition set_deferred (v : option handle) (s : state) : state :=
  MkState v (_maxConcurrent s) (_numRunning s) (_processing s) (_queue s)
    (_retry s) (_runPromise s) (heap s) (inflight s) (calls s) (unhandled s).
Definition set_numRunning (v : Z) (s : state) : state :=
  MkState (_deferred s) (_maxConcurrent s) v (_processing s) (_queue s)
    (_retry s) (_runPromise s) (heap s) (inflight s) (calls s) (unhandled s).
Definition set_processing (v : gmap TFirstArg Job) (s : state) : state :=
  MkState (_deferred s) (_maxConcurrent s) (_numRunning s) v (_queue s)
    (_retry s) (_runPromise s) (heap s) (inflight s) (calls s) (unhandled s).
Definition set_queue (v : list (TFirstArg * TRestArgs)) (s : state) : state :=
  MkState (_deferred s) (_maxConcurrent s) (_numRunning s) (_processing s) v
    (_retry s) (_runPromise s) (heap s) (inflight s) (calls s) (unhandled s).
Definition set_runPromise (v : option handle) (s : state) : state :=
  MkState (_deferred s) (_maxConcurrent s) (_numRunning s) (_processing s)
    (_queue s) (_retry s) v (heap s) (inflight s) (calls s) (unhandled s).
Definition set_heap (v : store TErr) (s : state) : state :=
  MkState (_deferred s) (_maxConcurrent s) (_numRunning s) (_processing s)
    (_queue s) (_retry s) (_runPromise s) v (inflight s) (calls s) (unhandled s).
Definition set_inflight (v : list activation) (s : state) : state :=
  MkState (_deferred s) (_maxConcurrent s) (_numRunning s) (_processing s)
    (_queue s) (_retry s) (_runPromise s) (heap s) v (calls s) (unhandled s).
Definition set_calls (v : list (TFirstArg * TRestArgs)) (s : state) : state :=
  MkState (_deferred s) (_maxConcurrent s) (_numRunning s) (_processing s)
    (_queue s) (_retry s) (_runPromise s) (heap s) (inflight s) v (unhandled s).
Definition set_unhandled (v : list exn) (s : state) : state :=
  MkState (_deferred s) (_maxConcurrent s) (_numRunning s) (_processing s)
    (_queue s) (_retry s) (_runPromise s) (heap s) (inflight s) (calls s) v.

(** *** constructor

    The field initialisers of the class give every new object the same
    start; the constructor then stores the limit and the retry flag. *)

Definition fresh_queue (limit : number) (retrying : bool) : state :=
  {| _deferred := None;
     _maxConcurrent := limit;
     _numRunning := 0;
     _processing := ∅;
     _queue := [];
     _retry := retrying;
     _runPromise := None;
     heap := [];
     inflight := [];
     calls := [];
     unhandled := [] |}.

Definition constructor (options : option PromiseQueueOpts) : completion state :=
  let options := default {| maxConcurrent := None; retry := None |} options in
  if match maxConcurrent options with
     | Some m => m <=? 0
     | None => false
     end
  then Throw (TypeError "maxConcurrent must be a positive, non-zero value")
  else Normal
    (fresh_queue
       match maxConcurrent options with
       | None => Infinity
       | Some m => Finite m
       end
       match retry options with
       | Some false => false
       | _ => true
       end).

(** *** _reset *)

Definition _reset (s : state) : state :=
  set_deferred None (set_runPromise None (set_processing ∅ s)).

(** *** _runJob, up to its [await]

    [nullthrows] throws inside the [async] function when the registry
    has no job for [key]: the call returns a rejected promise that the
    callers drop, and nothing else has happened.  Otherwise the counter is
    incremented, the worker is called and the activation is suspended on
    the promise the worker returns.

    The worker is taken to return a promise at every call, as its type
    says.  A worker that throws instead sends [_runJob] into its [catch]
    block before anything is suspended: [_runJob_sync] below has that
    path, and agrees with this definition when no call throws. *)
Definition _runJob (key : TFirstArg) (args : TRestArgs) (s : state) : state :=
  match _processing s !! key with
  | None => set_unhandled (unhandled s ++ [NullthrowsError]) s
  | Some job =>
      set_inflight
        (inflight s ++ [{| act_key := key; act_args := args; act_job := job |}])
        (set_calls (calls s ++ [(key, args)])
           (set_numRunning (_numRunning s + 1) s))
  end.

(** *** _next

    The [while] loop shifts one entry per iteration, so the length of the
    queue on entry bounds the number of iterations. *)
Fixpoint _next_loop (fuel : nat) (s : state) : state :=
  match fuel with
  | O => s
  | S fuel' =>
      match _queue s with
      | [] => s
      | (key, args) :: rest =>
          if num_lt (_numRunning s) (_maxConcurrent s)
          then _next_loop fuel' (_runJob key args (set_queue rest s))
          else s
      end
  end.

Definition _next (s : state) : state * completion unit :=
  match _runPromise s with
  | None => (s, Normal ())
  | Some _ =>
      let s1 := _next_loop (length (_queue s)) s in
      if decide (size (_processing s1) = 0%nat)
      then match _deferred s1 with
           | None => (s1, Throw AssertionError)
           | Some d => (_reset (set_heap (resolve d (heap s1)) s1), Normal ())
           end
      else (s1, Normal ())
  end.

(** *** add

    The empty [catch] handler attached to [jobPromise] changes nothing in
    the queue. *)

Definition add (key : TFirstArg) (args : TRestArgs) (s : state) : state * handle :=
  match _processing s !! key with
  | Some existingJob => (s, job_promise existingJob)
  | None =>
      let '(hp, deferredWithPromise) := makeDeferredWithPromise (heap s) in
      let jobPromise := promise deferredWithPromise in
      let s1 :=
        set_processing
          (<[key := {| job_deferred := deferred deferredWithPromise;
                       job_promise := jobPromise;
                       job_retried := false |}]> (_processing s))
          (set_heap hp s) in
      let s2 :=
        if bool_decide (is_Some (_runPromise s1))
           && num_lt (_numRunning s1) (_maxConcurrent s1)
        then _runJob key args s1
        else set_queue (_queue s1 ++ [(key, args)]) s1 in
      (s2, jobPromise)
  end.

(** *** run *)

Definition run (s : state) : state * completion handle :=
  match _runPromise s with
  | Some p => (s, Normal p)
  | None =>
      let '(hp, dp) := makeDeferredWithPromise (heap s) in
      let s1 := set_runPromise (Some (promise dp))
                  (set_deferred (Some (deferred dp)) (set_heap hp s)) in
      match _next s1 with
      | (s2, Normal _) => (s2, Normal (promise dp))
      | (s2, Throw x) => (s2, Throw x)
      end
  end.

(** *** _runJob, from its [await] on

    A throw of [_next] here rejects the promise of the [async] call. *)
Definition after_next (r : state * completion unit) : state :=
  match r with
  | (s, Normal _) => s
  | (s, Throw x) => set_unhandled (unhandled s ++ [x]) s
  end.

Definition _runJob_resume (a : activation) (o : outcome TErr) (s : state) : state :=
  let key := act_key a in
  let args := act_args a in
  let job := act_job a in
  match o with
  | Rejects err =>
      let s1 := set_numRunning (_numRunning s - 1) s in
      if _retry s1 && negb (job_retried job)
      then
        let s2 :=
          set_processing
            (<[key := {| job_deferred := job_deferred job;
                         job_promise := job_promise job;
                         job_retried := true |}]> (_processing s1)) s1 in
        let s3 := set_queue (_queue s2 ++ [(key, args)]) s2 in
        after_next (_next s3)
      else
        let s2 := set_processing (delete key (_processing s1)) s1 in
        let s3 := set_heap (reject (job_deferred job) err (heap s2)) s2 in
        let s4 :=
          match _deferred s3 with
          | Some d => set_heap (reject d err (heap s3)) s3
          | None => s3
          end in
        _reset s4
  | Resolves =>
      let s1 := set_heap (resolve (job_deferred job) (heap s)) s in
      let s2 := set_processing (delete key (_processing s1)) s1 in
      let s3 := set_numRunning (_numRunning s2 - 1) s2 in
      after_next (_next s3)
  end.

(** ** Turns of the event loop *)

Inductive event : Type :=
| Add (key : TFirstArg) (args : TRestArgs)
| Run
| Settle (i : nat) (o : outcome TErr).

(** [Settle i o]: the worker promise awaited by the [i]-th suspended
    activation has settled with [o] and the activation runs to its end. *)
Definition step (ev : event) (s : state) : state :=
  match ev with
  | Add key args => fst (add key args s)
  | Run => fst (run s)
  | Settle i o =>
      match inflight s !! i with
      | None => s
      | Some a => _runJob_resume a o (set_inflight (delete i (inflight s)) s)
      end
  end.

Definition exec (evs : list event) (s : state) : state :=
  foldl (fun s ev => step ev s) s evs.

Inductive reachable : state -> Prop :=
| reachable_new options s :
    constructor options = Normal s -> reachable s
| reachable_step ev s :
    reachable s -> reachable (step ev s).

(** ** Vocabulary of the statements *)

(** What [_runJob] and the loop never touch. *)
Definition same_cycle (s s' : state) : Prop :=
  _processing s' = _processing s /\ heap s' = heap s /\
  _runPromise s' = _runPromise s /\ _deferred s' = _deferred s /\
  _retry s' = _retry s /\ _maxConcurrent s' = _maxConcurrent s.

(** What a pass of the loop that starts no job leaves alone. *)
Definition same_work (s s' : state) : Prop :=
  _numRunning s' = _numRunning s /\ inflight s' = inflight s /\
  calls s' = calls s.

(** *** Invariants of reachable states *)

(** A job's handle was allocated in the store and is not the handle of
    the cycle. *)
Definition job_fresh (st : store TErr) (cycle : option handle) (j : Job) : Prop :=
  (job_deferred j < length st)%nat /\ cycle ≠ Some (job_deferred j).

Record inv_base (s : state) : Prop := {
  inv_count : _numRunning s = Z.of_nat (length (inflight s));
  inv_limit : num_le (_numRunning s) (_maxConcurrent s) = true;
  inv_cycle : _deferred s = _runPromise s;
  inv_pending : forall h, _runPromise s = Some h -> heap s !! h = Some Pending;
  inv_registry :
    forall k j, _processing s !! k = Some j ->
                job_fresh (heap s) (_runPromise s) j;
  inv_inflight :
    forall a, a ∈ inflight s -> job_fresh (heap s) (_runPromise s) (act_job a)
}.

Record inv (s : state) : Prop := {
  inv_of_base : inv_base s;
  inv_live : is_Some (_runPromise s) -> _processing s ≠ ∅;
  inv_slack :
    _runPromise s = None -> num_lt (_numRunning s) (_maxConcurrent s) = true
}.

(** The completion handle of the job outstanding for [key], if any. *)
Definition outstanding_handle (s : state) (key : TFirstArg) : option handle :=
  job_promise <$> _processing s !! key.

(** *** Scheduling vocabulary *)

(** The loop of [_next] has nothing left to do: no entry waits or no slot
    is free. *)
Definition saturated (s : state) : Prop :=
  _queue s = [] \/ num_lt (_numRunning s) (_maxConcurrent s) = false.

(** The keys the scheduler still has to deal with: first those waiting,
    then those whose worker call is in flight. *)
Definition keys_at_work (s : state) : list TFirstArg :=
  (_queue s).*1 ++ (act_key <$> inflight s).

(** The number of entries waiting or in flight. *)
Definition work (s : state) : nat :=
  (length (_queue s) + length (inflight s))%nat.

(** [terminal ev s]: the event is a worker failure that takes the [else]
    branch of the [catch] block of [_runJob]. *)
Definition terminal (ev : event) (s : state) : bool :=
  match ev with
  | Settle i (Rejects _) =>
      match inflight s !! i with
      | Some a => negb (_retry s && negb (job_retried (act_job a)))
      | None => false
      end
  | _ => false
  end.

(** The states reached without any terminal failure. *)
Inductive reachable_clean : state -> Prop :=
| clean_new options s :
    constructor options = Normal s -> reachable_clean s
| clean_step ev s :
    reachable_clean s -> terminal ev s = false -> reachable_clean (step ev s).

(** No event of the list is a terminal failure when its turn comes. *)
Fixpoint no_terminal (evs : list event) (s : state) : bool :=
  match evs with
  | [] => true
  | ev :: rest => negb (terminal ev s) && no_terminal rest (step ev s)
  end.

(** What holds of the states reached without terminal failure. *)
Record clean_inv (s : state) : Prop := {
  clean_nodup : NoDup (keys_at_work s);
  clean_registered :
    forall k, k ∈ keys_at_work s -> is_Some (_processing s !! k);
  clean_job :
    forall a, a ∈ inflight s -> _processing s !! act_key a = Some (act_job a);
  clean_unhandled : unhandled s = []
}.

(** Nothing but failures of [nullthrows]. *)
Definition only_nullthrows (xs : list exn) : Prop :=
  Forall (fun x => x = NullthrowsError) xs.

(** Every key of the registry is waiting or in flight. *)
Definition registered_at_work (s : state) : Prop :=
  forall k, is_Some (_processing s !! k) -> k ∈ keys_at_work s.

(** [P] holds of every entry waiting, in flight or logged as called. *)
Definition all_entries (P : TFirstArg * TRestArgs -> Prop) (s : state) : Prop :=
  Forall P (_queue s) /\ Forall P (calls s) /\
  Forall (fun a => P (act_key a, act_args a)) (inflight s).

(** The promise of every registered job is pending and is the one its
    deferred settles, and no two registered jobs share a promise. *)
Definition handles_pending (s : state) : Prop :=
  (forall k j, _processing s !! k = Some j ->
               heap s !! job_deferred j = Some Pending /\
               job_promise j = job_deferred j) /\
  (forall k1 k2 j1 j2,
      _processing s !! k1 = Some j1 -> _processing s !! k2 = Some j2 ->
      job_deferred j1 = job_deferred j2 -> k1 = k2).

(** *** Handles that nothing settles *)

(** [h] is pending and neither the cycle, nor a registered job, nor a call
    in flight holds it. *)
Definition unowned (h : handle) (s : state) : Prop :=
  heap s !! h = Some Pending /\
  _deferred s <> Some h /\
  (forall k j, _processing s !! k = Some j -> job_deferred j <> h) /\
  (forall a, a ∈ inflight s -> job_deferred (act_job a) <> h).

(** *** Schedules of successful settlements *)

(** At each turn of the schedule the worker call suspended at the given
    index resolves. *)
Definition resolutions (idxs : list nat) : list event :=
  (fun i => Settle i Resolves) <$> idxs.

(** Each index of the schedule names a call in flight when its turn
    comes. *)
Fixpoint resolvable (idxs : list nat) (s : state) : bool :=
  match idxs with
  | [] => true
  | i :: rest =>
      bool_decide (is_Some (inflight s !! i)) &&
      resolvable rest (step (Settle i Resolves) s)
  end.

End PromiseQueue.

Arguments activation : clear implicits.
Arguments state TFirstArg {_ _} TRestArgs TErr.
Arguments event : clear implicits.

(** ** A worker that throws before it returns a promise

    [_process] is typed as returning a promise, and the definitions above
    take every call of it to return one.  Should the function throw
    instead, the [try] of [_runJob] reaches its [catch] block within the
    turn of the caller, [add] or the loop of [_next], before anything is
    suspended; a retry then calls [_next] from inside that loop.  The
    definitions of this section have this path.  The recursion between
    [_next], its loop and [_runJob] is cut by [fuel]; [None] says that the
    fuel did not suffice. *)

Section SynchronousThrow.

Context {TFirstArg : Type} `{Countable TFirstArg} {TRestArgs TErr : Type}.

Abbreviation state := (state TFirstArg TRestArgs TErr).
Abbreviation activation := (activation TFirstArg TRestArgs).
Abbreviation event := (event TFirstArg TRestArgs TErr).

(** [throws n] is what the worker does at its call number [n], counted
    from 0 in the order of the log [calls]: with [Some err] it throws
    [err], with [None] it returns a promise. *)
Variable throws : nat -> option TErr.

(** The [catch] block of [_runJob]; [next] is the call of [_next] in it,
    a throw of which rejects the promise of the [async] call. *)
Definition _runJob_catch (next : state -> option state)
    (key : TFirstArg) (args : TRestArgs) (job : Job) (err : TErr)
    (s : state) : option state :=
  let s1 := set_numRunning (_numRunning s - 1) s in
  if _retry s1 && negb (job_retried job)
  then
    let s2 :=
      set_processing
        (<[key := {| job_deferred := job_deferred job;
                     job_promise := job_promise job;
                     job_retried := true |}]> (_processing s1)) s1 in
    let s3 := set_queue (_queue s2 ++ [(key, args)]) s2 in
    next s3
  else
    let s2 := set_processing (delete key (_processing s1)) s1 in
    let s3 := set_heap (reject (job_deferred job) err (heap s2)) s2 in
    let s4 :=
      match _deferred s3 with
      | Some d => set_heap (reject d err (heap s3)) s3
      | None => s3
      end in
    Some (_reset s4).

Fixpoint _next_sync (fuel : nat) (s : state) {struct fuel} :
    option (state * completion unit) :=
  match fuel with
  | O => None
  | S fuel' =>
      match _runPromise s with
      | None => Some (s, Normal ())
      | Some _ =>
          match _next_loop_sync fuel' s with
          | None => None
          | Some s1 =>
              Some
                (if decide (size (_processing s1) = 0%nat)
                 then match _deferred s1 with
                      | None => (s1, Throw AssertionError)
                      | Some d =>
                          (_reset (set_heap (resolve d (heap s1)) s1),
                           Normal ())
                      end
                 else (s1, Normal ()))
          end
      end
  end
with _next_loop_sync (fuel : nat) (s : state) {struct fuel} : option state :=
  match _queue s with
  | [] => Some s
  | (key, args) :: rest =>
      if num_lt (_numRunning s) (_maxConcurrent s)
      then match fuel with
           | O => None
           | S fuel' =>
               match _runJob_sync fuel' key args (set_queue rest s) with
               | None => None
               | Some s1 => _next_loop_sync fuel' s1
               end
           end
      else Some s
  end
with _runJob_sync (fuel : nat) (key : TFirstArg) (args : TRestArgs)
    (s : state) {struct fuel} : option state :=
  match _processing s !! key with
  | None => Some (set_unhandled (unhandled s ++ [NullthrowsError]) s)
  | Some job =>
      let s1 :=
        set_calls (calls s ++ [(key, args)])
          (set_numRunning (_numRunning s + 1) s) in
      match throws (length (calls s)) with
      | None =>
          Some
            (set_inflight
               (inflight s1 ++
                [{| act_key := key; act_args := args; act_job := job |}]) s1)
      | Some err =>
          match fuel with
          | O => None
          | S fuel' =>
              _runJob_catch
                (fun s3 => after_next <$> _next_sync fuel' s3)
                key args job err s1
          end
      end
  end.

Definition add_sync (fuel : nat) (key : TFirstArg) (args : TRestArgs)
    (s : state) : option (state * handle) :=
  match _processing s !! key with
  | Some existingJob => Some (s, job_promise existingJob)
  | None =>
      let '(hp, deferredWithPromise) := makeDeferredWithPromise (heap s) in
      let jobPromise := promise deferredWithPromise in
      let s1 :=
        set_processing
          (<[key := {| job_deferred := deferred deferredWithPromise;
                       job_promise := jobPromise;
                       job_retried := false |}]> (_processing s))
          (set_heap hp s) in
      if bool_decide (is_Some (_runPromise s1))
         && num_lt (_numRunning s1) (_maxConcurrent s1)
      then (fun s2 => (s2, jobPromise)) <$> _runJob_sync fuel key args s1
      else Some (set_queue (_queue s1 ++ [(key, args)]) s1, jobPromise)
  end.

Definition run_sync (fuel : nat) (s : state) :
    option (state * completion handle) :=
  match _runPromise s with
  | Some p => Some (s, Normal p)
  | None =>
      let '(hp, dp) := makeDeferredWithPromise (heap s) in
      let s1 := set_runPromise (Some (promise dp))
                  (set_deferred (Some (deferred dp)) (set_heap hp s)) in
      match _next_sync fuel s1 with
      | None => None
      | Some (s2, Normal _) => Some (s2, Normal (promise dp))
      | Some (s2, Throw x) => Some (s2, Throw x)
      end
  end.

(** [_runJob] from its [await] on, when the worker did return a promise. *)
Definition _runJob_resume_sync (fuel : nat) (a : activation)
    (o : outcome TErr) (s : state) : option state :=
  let key := act_key a in
  let args := act_args a in
  let job := act_job a in
  match o with
  | Rejects err =>
      _runJob_catch (fun s3 => after_next <$> _next_sync fuel s3)
        key args job err s
  | Resolves =>
      let s1 := set_heap (resolve (job_deferred job) (heap s)) s in
      let s2 := set_processing (delete key (_processing s1)) s1 in
      let s3 := set_numRunning (_numRunning s2 - 1) s2 in
      after_next <$> _next_sync fuel s3
  end.

Definition step_sync (fuel : nat) (ev : event) (s : state) : option state :=
  match ev with
  | Add key args => fst <$> add_sync fuel key args s
  | Run => fst <$> run_sync fuel s
  | Settle i o =>
      match inflight s !! i with
      | None => Some s
      | Some a =>
          _runJob_resume_sync fuel a o (set_inflight (delete i (inflight s)) s)
      end
  end.

Inductive reachable_sync : state -> Prop :=
| reachable_sync_new options s :
    constructor options = Normal s -> reachable_sync s
| reachable_sync_step fuel ev s s' :
    reachable_sync s -> step_sync fuel ev s = Some s' -> reachable_sync s'.

End SynchronousThrow.

(** ** Concrete runs

    Queues with number keys, a list of numbers as further arguments and
    numbers as errors. *)

Abbreviation qstate := (state nat (list nat) nat).
Abbreviation qevent := (event nat (list nat) nat).
Abbreviation qactivation := (activation nat (list nat)).

(** Two jobs added, then [run]: without a limit both are running. *)
Definition two_running : qstate :=
  exec [Add 1%nat []; Add 2%nat []; Run] (fresh_queue Infinity false).

(** The same with [maxConcurrent: 1]: job 1 runs, job 2 waits. *)
Definition one_running_one_pending : qstate :=
  exec [Add 1%nat []; Add 2%nat []; Run] (fresh_queue (Finite 1) false).

(** ... and then the worker of job 1 fails, with retry off. *)
Definition after_terminal_failure : qstate :=
  step (Settle 0 (Rejects 7%nat)) one_running_one_pending.

(** [maxConcurrent: 2], retry on.  Jobs 1, 2, 3 are added and the queue is
    run; job 1 fails, job 2 fails (both re-queued), job 1 fails again, which
    is terminal and resets the cycle while the retry entry of job 2 waits in
    the queue; job 2 is added anew; the queue is run; job 3 succeeds. *)
Definition doubly_admitted : qstate :=
  exec [Add 1%nat []; Add 2%nat []; Add 3%nat []; Run;
        Settle 0 (Rejects 7%nat); Settle 0 (Rejects 7%nat);
        Settle 1 (Rejects 7%nat);
        Add 2%nat []; Run; Settle 0 Resolves]
       (fresh_queue (Finite 2) true).

(** One job running with retry on and no limit. *)
Definition one_running_retrying : qstate :=
  exec [Add 1%nat []; Run] (fresh_queue Infinity true).

(** Retry on, no limit.  Jobs 1 and 2 are added and the queue is run; the
    worker of job 1 fails twice, which is terminal and resets the cycle
    while the worker call for job 2 is still in flight. *)
Definition call_outlives_cycle : qstate :=
  exec [Add 1%nat []; Add 2%nat []; Run;
        Settle 0 (Rejects 7%nat); Settle 1 (Rejects 7%nat)]
       (fresh_queue Infinity true).


(** ** installPackage.js: the install queue

    The module keeps one [PromiseQueue] whose worker is [install], and the
    set of the modules being installed.  [_addToInstallQueue] is the only
    code that touches either. *)

Inductive PackageManager : Type := npm | yarn.

Record InstallOptions := {
  installPeers : option bool;
  saveDev : option bool;
  packageManager : option PackageManager
}.

Abbreviation FilePath := string.

(** The key of a job is an array of module names.  A [Map] compares
    objects by identity, so an array is its identity together with its
    contents; the arrays used as keys are never written to. *)
Abbreviation ModuleArray := (nat * list string)%type.

(** The further arguments of the worker: [filePath] and [options]. *)
Abbreviation InstallArgs := (FilePath * option InstallOptions)%type.

Section InstallQueue.

Context {TErr : Type}.

(** The two variables of the module, [queue] and [modulesInstalling],
    followed by the callbacks passed to [then] that have not run, each with
    the promise it waits for and the [modulesToInstall] it closes over, and
    the number of arrays [filter] has created. *)
Record module_state := MkModule {
  queue : state ModuleArray InstallArgs TErr;
  modulesInstalling : gset string;
  thens : list (handle * list string);
  arrays : nat
}.

(** The evaluation of the module's top level. *)
Definition module_init : completion module_state :=
  match constructor (Some {| maxConcurrent := Some 1; retry := Some false |}) with
  | Normal q =>
      Normal {| queue := q; modulesInstalling := ∅; thens := []; arrays := 0 |}
  | Throw x => Throw x
  end.

Definition _addToInstallQueue (modules : list string) (filePath : FilePath)
    (options : option InstallOptions) (st : module_state)
  : module_state * completion handle :=
  let modulesToInstall := filter (fun m => m ∉ modulesInstalling st) modules in
  let key : ModuleArray := (arrays st, modulesToInstall) in
  let st1 :=
    if bool_decide (length modulesToInstall ≠ 0%nat)
    then
      let installing :=
        foldl (fun acc m => {[m]} ∪ acc) (modulesInstalling st) modulesToInstall in
      let '(q, jobPromise) := add key (filePath, options) (queue st) in
      {| queue := q;
         modulesInstalling := installing;
         thens := thens st ++ [(jobPromise, modulesToInstall)];
         arrays := S (arrays st) |}
    else
      {| queue := queue st;
         modulesInstalling := modulesInstalling st;
         thens := thens st;
         arrays := S (arrays st) |} in
  let '(q, r) := run (queue st1) in
  ({| queue := q;
      modulesInstalling := modulesInstalling st1;
      thens := thens st1;
      arrays := arrays st1 |}, r).

(** The turns of the event loop that concern the module: a call of
    [_addToInstallQueue], the settlement of a call of the worker, and the
    run of a [then] callback, which happens only once its promise is
    fulfilled. *)
Inductive module_event : Type :=
| Request (modules : list string) (filePath : FilePath)
    (options : option InstallOptions)
| WorkerSettles (i : nat) (o : outcome TErr)
| ThenRuns (j : nat).

Definition module_step (ev : module_event) (st : module_state) : module_state :=
  match ev with
  | Request modules filePath options =>
      (_addToInstallQueue modules filePath options st).1
  | WorkerSettles i o =>
      {| queue := step (Settle i o) (queue st);
         modulesInstalling := modulesInstalling st;
         thens := thens st;
         arrays := arrays st |}
  | ThenRuns j =>
      match thens st !! j with
      | Some (p, modulesToInstall) =>
          match heap (queue st) !! p with
          | Some Fulfilled =>
              {| queue := queue st;
                 modulesInstalling :=
                   foldl (fun acc m => acc ∖ {[m]}) (modulesInstalling st)
                     modulesToInstall;
                 thens := delete j (thens st);
                 arrays := arrays st |}
          | _ => st
          end
      | None => st
      end
  end.

Definition module_exec (evs : list module_event) (st : module_state)
  : module_state :=
  foldl (fun st ev => module_step ev st) st evs.

Inductive module_reachable : module_state -> Prop :=
| module_reachable_init st :
    module_init = Normal st -> module_reachable st
| module_reachable_step ev st :
    module_reachable st -> module_reachable (module_step ev st).

(** The callbacks not yet run that close over module [m]. *)
Definition claims_of (m : string) (st : module_state)
  : list (handle * list string) :=
  filter (fun r => m ∈ r.2) (thens st).

(** The state the evaluation of the module's top level gives. *)
Definition module_start : module_state :=
  {| queue := fresh_queue (Finite 1) false; modulesInstalling := ∅;
     thens := []; arrays := 0 |}.

(** The set [modulesInstalling] is made of the modules of the callbacks
    not yet run, and no module is in two of them. *)
Definition claims_inv (st : module_state) : Prop :=
  (forall m, m ∈ modulesInstalling st <-> exists r, r ∈ thens st /\ m ∈ r.2) /\
  (forall m, (length (claims_of m st) <= 1)%nat).

(** An entry made by this module: its array was created before [n] arrays
    had been, and it is not empty. *)
Definition entry_ok (n : nat) (c : ModuleArray * InstallArgs) : Prop :=
  (c.1.1 < n)%nat /\ c.1.2 ≠ [].

End InstallQueue.

Arguments module_state : clear implicits.
Arguments module_event : clear implicits.

(** Install queues whose worker fails with a number. *)

Abbreviation istate := (module_state nat).

(** Two requests, for ["a"] and then for ["b"]: the first is being
    installed, the second waits. *)
Definition two_requests : istate :=
  module_exec [Request ["a"%string] "/app/index.js"%string None;
               Request ["b"%string] "/app/index.js"%string None]
    module_start.

(** A request for ["a"] whose install has failed. *)
Definition failed_request : istate :=
  module_exec [Request ["a"%string] "/app/index.js"%string None;
               WorkerSettles 0 (Rejects 7%nat)]
    module_start.


(** ** Facts about the modelled Deferred *)

Section DeferredFacts.

Context {E : Type}.
Implicit Types (st : store E) (h : handle) (v w : settlement E).

Lemma length_settle v h st : length (settle v h st) = length st.
Proof.
  unfold settle. destruct (st !! h) as [[]|]; simpl; try done.
  by rewrite length_insert.
Qed.

Lemma lookup_settle_ne v h h' st : h ≠ h' -> settle v h st !! h' = st !! h'.
Proof.
  intros Hne. unfold settle. destruct (st !! h) as [[]|]; simpl; try done.
  by rewrite list_lookup_insert_ne.
Qed.

Lemma lookup_settle_pending v h st :
  st !! h = Some Pending -> settle v h st !! h = Some v.
Proof.
  intros Hp. unfold settle. rewrite Hp.
  apply list_lookup_insert_eq. by eapply lookup_lt_Some.
Qed.

Lemma lookup_settle_settled v h h' st w :
  st !! h' = Some w -> w ≠ Pending -> settle v h st !! h' = Some w.
Proof.
  intros Hw Hne. destruct (decide (h = h')) as [->|Hd].
  - unfold settle. rewrite Hw. by destruct w.
  - by rewrite lookup_settle_ne.
Qed.

Lemma store_le_refl st : store_le st st.
Proof. by intros h w. Qed.

Lemma store_le_trans st1 st2 st3 :
  store_le st1 st2 -> store_le st2 st3 -> store_le st1 st3.
Proof. intros H12 H23 h w Hw Hne. apply H23; [by apply H12 | done]. Qed.

Lemma store_le_settle v h st : store_le st (settle v h st).
Proof. intros h' w Hw Hne. by apply lookup_settle_settled. Qed.

Lemma store_le_alloc st : store_le st (st ++ [Pending]).
Proof. intros h w Hw _. by apply lookup_app_l_Some. Qed.

End DeferredFacts.

Create HintDb pq.
#[local] Hint Resolve store_le_refl store_le_settle store_le_alloc : pq.

(** ** Facts about limits *)

Lemma num_lt_succ_le n m : num_lt n m = true -> num_le (n + 1) m = true.
Proof. destruct m; simpl; [|done]. lia. Qed.

Lemma num_le_pred_lt n m : num_le n m = true -> num_lt (n - 1) m = true.
Proof. destruct m; simpl; [|done]. lia. Qed.

Lemma num_le_pred n m : num_le n m = true -> num_le (n - 1) m = true.
Proof. destruct m; simpl; [|done]. lia. Qed.

Section Scheduler.

Context {TFirstArg : Type} `{Countable TFirstArg}.
Context {TRestArgs TErr : Type}.

Abbreviation state := (state TFirstArg TRestArgs TErr).
Abbreviation event := (event TFirstArg TRestArgs TErr).
Abbreviation activation := (activation TFirstArg TRestArgs).

Implicit Types (s : state) (ev : event) (a : activation) (j : Job).
Implicit Types (key k : TFirstArg) (args : TRestArgs) (h : handle).
Implicit Types (st : store TErr) (cycle : option handle).

(** *** The admission loop *)

Lemma _runJob_same_cycle key args s : same_cycle s (_runJob key args s).
Proof. unfold _runJob, same_cycle. by destruct (_processing s !! key). Qed.

Lemma _runJob_queue key args s : _queue (_runJob key args s) = _queue s.
Proof. unfold _runJob. by destruct (_processing s !! key). Qed.

Lemma _next_loop_preserves (P : state -> Prop) :
  (forall s q, P s -> P (set_queue q s)) ->
  (forall key args s,
      P s -> num_lt (_numRunning s) (_maxConcurrent s) = true ->
      P (_runJob key args s)) ->
  forall fuel s, P s -> P (_next_loop fuel s).
Proof.
  intros Hq Hr. induction fuel as [|fuel IH]; intros s Hs; simpl; [done|].
  destruct (_queue s) as [|[key args] rest]; [done|].
  destruct (num_lt _ _) eqn:Hlt; [|done].
  apply IH, Hr; [by apply Hq | done].
Qed.

Lemma _next_loop_same_cycle fuel s : same_cycle s (_next_loop fuel s).
Proof.
  apply (_next_loop_preserves (same_cycle s)).
  - intros s' q Hs'. exact Hs'.
  - intros key args s' (?&?&?&?&?&?) _.
    destruct (_runJob_same_cycle key args s') as (?&?&?&?&?&?).
    repeat split; congruence.
  - by repeat split.
Qed.

(** The loop stops for one of the two reasons its condition tests. *)
Lemma _next_loop_exit fuel s :
  (length (_queue s) <= fuel)%nat ->
  _queue (_next_loop fuel s) = [] \/
  num_lt (_numRunning (_next_loop fuel s))
         (_maxConcurrent (_next_loop fuel s)) = false.
Proof.
  revert s. induction fuel as [|fuel IH]; intros s Hlen; simpl.
  - left. destruct (_queue s); [done | simpl in Hlen; lia].
  - destruct (_queue s) as [|[key args] rest] eqn:Hq; [by left|].
    destruct (num_lt _ _) eqn:Hlt; [|by right].
    apply IH. rewrite _runJob_queue. simpl in *. lia.
Qed.

(** Entries leave the queue from the front only. *)
Lemma _next_loop_suffix fuel s :
  exists admitted, _queue s = admitted ++ _queue (_next_loop fuel s).
Proof.
  revert s. induction fuel as [|fuel IH]; intros s; simpl.
  - by exists [].
  - destruct (_queue s) as [|[key args] rest] eqn:Hq.
    + exists []. by rewrite Hq.
    + destruct (num_lt _ _).
      * destruct (IH (_runJob key args (set_queue rest s))) as [adm Hadm].
        rewrite _runJob_queue in Hadm. simpl in Hadm.
        exists ((key, args) :: adm). by rewrite Hadm at 1.
      * exists []. by rewrite Hq.
Qed.

(** With an empty registry every [_runJob] of the loop throws: no worker
    is called and no slot is taken. *)
Lemma _next_loop_empty_registry fuel s :
  _processing s = ∅ -> same_work s (_next_loop fuel s).
Proof.
  intros Hemp.
  apply (_next_loop_preserves
           (fun s' => _processing s' = ∅ /\ same_work s s')).
  - intros s' q Hs'. exact Hs'.
  - intros key args s' [He Hw] _. unfold _runJob.
    rewrite He, lookup_empty. by split.
  - by repeat split.
Qed.

(** *** Preservation of the invariants *)

Lemma job_fresh_settle v h st cycle j :
  job_fresh st cycle j -> job_fresh (settle v h st) None j.
Proof. intros [Hlt _]. split; [by rewrite length_settle | done]. Qed.

Lemma job_fresh_settle_keep v h st cycle j :
  job_fresh st cycle j -> job_fresh (settle v h st) cycle j.
Proof. intros [Hlt Hne]. split; [by rewrite length_settle | done]. Qed.

Lemma inv_base_set_queue s q : inv_base s -> inv_base (set_queue q s).
Proof. intros [Hc Hl Hcy Hp Hr Hi]. by constructor. Qed.

Lemma inv_base_runJob key args s :
  inv_base s -> num_lt (_numRunning s) (_maxConcurrent s) = true ->
  inv_base (_runJob key args s).
Proof.
  intros [Hc Hl Hcy Hp Hr Hi] Hlt. unfold _runJob.
  destruct (_processing s !! key) as [job|] eqn:Hjob; [|by constructor].
  constructor; simpl; try done.
  - rewrite length_app. simpl. lia.
  - by apply num_lt_succ_le.
  - intros a [Ha | ->%list_elem_of_singleton]%elem_of_app; [by apply Hi|].
    simpl. by eapply Hr.
Qed.

Lemma inv_base_next_loop fuel s :
  inv_base s -> inv_base (_next_loop fuel s).
Proof.
  apply (_next_loop_preserves inv_base).
  - intros. by apply inv_base_set_queue.
  - intros. by apply inv_base_runJob.
Qed.

(** [_next], entered with a free slot, re-establishes the invariant and
    its assertion does not fail. *)
Lemma inv_next s :
  inv_base s -> num_lt (_numRunning s) (_maxConcurrent s) = true ->
  inv (_next s).1 /\ (_next s).2 = Normal ().
Proof.
  intros Hb Hlt. unfold _next. destruct (_runPromise s) as [p|] eqn:Hrp.
  - pose proof (inv_base_next_loop (length (_queue s)) s Hb) as Hb1.
    destruct (_next_loop_same_cycle (length (_queue s)) s)
      as (Hreg & Hheap & Hrun & Hdef & _ & Hmax).
    set (s1 := _next_loop (length (_queue s)) s) in *.
    destruct (decide (size (_processing s1) = 0%nat)) as [Hsz|Hsz].
    + apply map_size_empty_inv in Hsz.
      rewrite (inv_cycle _ Hb1), Hrun, Hrp. simpl. split; [|done].
      destruct Hb1 as [Hc Hl Hcy Hp Hr Hi].
      constructor; [constructor|..]; simpl; try done.
      * intros a Ha. eapply job_fresh_settle. by apply Hi.
      * intros _.
        destruct (_next_loop_empty_registry (length (_queue s)) s)
          as (Hn & _); [congruence|].
        fold s1 in Hn. by rewrite Hn, Hmax.
    + simpl. split; [|done]. constructor; [done | |].
      * intros _ Hemp. apply Hsz. rewrite Hemp. apply map_size_empty.
      * rewrite Hrun, Hrp. done.
  - simpl. split; [|done]. constructor; [done | | done].
    rewrite Hrp. by intros [? ?].
Qed.

Lemma inv_after_next s :
  inv_base s -> num_lt (_numRunning s) (_maxConcurrent s) = true ->
  inv (after_next (_next s)).
Proof.
  intros Hb Hlt. destruct (inv_next s Hb Hlt) as [Hi Hn].
  destruct (_next s) as [s' c]. simpl in *. by subst c.
Qed.

Lemma job_fresh_alloc st cycle j :
  job_fresh st cycle j -> job_fresh (st ++ [Pending]) cycle j.
Proof. intros [Hlt Hne]. split; [rewrite length_app; simpl; lia | done]. Qed.

Lemma inv_add key args s : inv s -> inv (add key args s).1.
Proof.
  intros [[Hc Hl Hcy Hp Hr Hi] Hlive Hslack]. unfold add.
  destruct (_processing s !! key) as [existingJob|] eqn:Hjob;
    [by constructor; [constructor|..]|].
  simpl.
  set (job := {| job_deferred := length (heap s);
                 job_promise := length (heap s); job_retried := false |}).
  set (s1 := set_processing (<[key:=job]> (_processing s))
               (set_heap (heap s ++ [Pending]) s)).
  assert (Hb1 : inv_base s1).
  { constructor; simpl; try done.
    - intros h Hh. by apply lookup_app_l_Some, Hp.
    - intros k j. rewrite lookup_insert. case_decide.
      + intros [= <-]. split; simpl; [rewrite length_app; simpl; lia|].
        intros Heq%Hp%lookup_lt_Some. lia.
      + intros Hj. eapply job_fresh_alloc, Hr, Hj.
    - intros a Ha. by apply job_fresh_alloc, Hi. }
  assert (Hne : <[key:=job]> (_processing s) ≠ ∅) by apply insert_non_empty.
  destruct (bool_decide (is_Some (_runPromise s))) eqn:Hact; simpl;
    [destruct (num_lt (_numRunning s) (_maxConcurrent s)) eqn:Hlt; simpl|].
  - apply bool_decide_eq_true in Hact.
    destruct (_runJob_same_cycle key args s1) as (Hreg & _ & Hrun & _).
    constructor; [by apply inv_base_runJob | by rewrite Hreg |].
    rewrite Hrun. simpl. intros Hn. rewrite Hn in Hact. by destruct Hact.
  - apply bool_decide_eq_true in Hact.
    constructor; [by apply inv_base_set_queue | done |].
    simpl. intros Hn. rewrite Hn in Hact. by destruct Hact.
  - constructor; [by apply inv_base_set_queue | done | done].
Qed.

Lemma inv_run s : inv s -> inv (run s).1.
Proof.
  intros Hinv. pose proof Hinv as [[Hc Hl Hcy Hp Hr Hi] Hlive Hslack].
  unfold run. destruct (_runPromise s) as [p|] eqn:Hrp; [done|]. simpl.
  set (s1 := set_runPromise _ _).
  assert (Hb1 : inv_base s1).
  { constructor; simpl; try done.
    - intros h [= <-]. by apply list_lookup_middle.
    - intros k j [Hlt _]%Hr. split; [rewrite length_app; simpl; lia|].
      intros [= Heq]. lia.
    - intros a [Hlt _]%Hi. split; [rewrite length_app; simpl; lia|].
      intros [= Heq]. lia. }
  destruct (inv_next s1 Hb1) as [Hi1 Hn1]; [by apply Hslack|].
  destruct (_next s1) as [s2 c]. simpl in *. by subst c.
Qed.

Lemma inv_resume s i a o :
  inv s -> inflight s !! i = Some a ->
  inv (_runJob_resume a o (set_inflight (delete i (inflight s)) s)).
Proof.
  intros [[Hc Hl Hcy Hp Hr Hi] Hlive Hslack] Ha.
  assert (Hlen : Z.of_nat (length (delete i (inflight s))) = _numRunning s - 1).
  { rewrite length_delete by eauto. apply lookup_lt_Some in Ha. lia. }
  assert (Hfa : job_fresh (heap s) (_runPromise s) (act_job a)).
  { eapply Hi, list_elem_of_lookup_2, Ha. }
  assert (Hrest : forall b, b ∈ delete i (inflight s) ->
                            job_fresh (heap s) (_runPromise s) (act_job b)).
  { intros b Hb. eapply Hi, list_elem_of_delete_inv, Hb. }
  unfold _runJob_resume. destruct o as [|err].
  - apply inv_after_next; simpl; [|by apply num_le_pred_lt].
    constructor; simpl; try done.
    + by apply num_le_pred.
    + intros h Hh. unfold resolve. rewrite lookup_settle_ne; [by apply Hp|].
      intros Heq. apply (proj2 Hfa). by rewrite Heq.
    + intros k j [_ Hj]%lookup_delete_Some.
      eapply job_fresh_settle_keep, Hr, Hj.
    + intros b Hb. by apply job_fresh_settle_keep, Hrest.
  - simpl. destruct (_retry s && negb (job_retried (act_job a))) eqn:Hretry.
    + apply inv_after_next; simpl; [|by apply num_le_pred_lt].
      constructor; simpl; try done.
      * by apply num_le_pred.
      * intros k j. rewrite lookup_insert. case_decide; [|by apply Hr].
        intros [= <-]. exact Hfa.
    + destruct (_deferred s) as [d|];
        (constructor; [constructor|..]; simpl; try done;
         [by apply num_le_pred
         | intros b Hb; repeat eapply job_fresh_settle; by apply Hrest
         | intros _; by apply num_le_pred_lt]).
Qed.

Lemma inv_step ev s : inv s -> inv (step ev s).
Proof.
  intros Hinv. destruct ev as [key args| |i o]; simpl.
  - by apply inv_add.
  - by apply inv_run.
  - destruct (inflight s !! i) as [a|] eqn:Ha; [by apply inv_resume | done].
Qed.

Lemma inv_constructor options s : constructor options = Normal s -> inv s.
Proof.
  unfold constructor. set (opts := default _ options).
  destruct (maxConcurrent opts) as [m|] eqn:Hm;
    [destruct (m <=? 0) eqn:Hle; [done|] |];
    intros [= <-];
    (constructor; [constructor|..]; simpl; try done;
     try lia; try (by intros a ?%elem_of_nil)).
Qed.

Lemma reachable_inv s : reachable s -> inv s.
Proof.
  induction 1 as [options s Hnew | ev s _ IH].
  - by eapply inv_constructor.
  - by apply inv_step.
Qed.

(** *** How [_next] ends *)

Lemma _next_inactive s : _runPromise s = None -> _next s = (s, Normal ()).
Proof. intros Hrp. unfold _next. by rewrite Hrp. Qed.

Lemma _next_active s p :
  _runPromise s = Some p ->
  let s1 := _next_loop (length (_queue s)) s in
  (_processing s ≠ ∅ /\ _next s = (s1, Normal ())) \/
  (_processing s = ∅ /\ _deferred s = None /\
   _next s = (s1, Throw AssertionError)) \/
  (_processing s = ∅ /\ exists d,
      _deferred s = Some d /\
      _next s = (_reset (set_heap (resolve d (heap s1)) s1), Normal ())).
Proof.
  intros Hrp s1. unfold _next. rewrite Hrp. fold s1.
  destruct (_next_loop_same_cycle (length (_queue s)) s)
    as (Hreg & _ & _ & Hdef & _). fold s1 in Hreg, Hdef.
  rewrite Hreg, Hdef.
  destruct (decide (size (_processing s) = 0%nat)) as [Hsz|Hsz].
  - apply map_size_empty_inv in Hsz. right.
    destruct (_deferred s) as [d|]; [right | left]; eauto.
  - left. split; [|done]. intros Hemp. apply Hsz.
    rewrite Hemp. apply map_size_empty.
Qed.

Lemma _next_live s :
  _processing s ≠ ∅ ->
  _next s = (s, Normal ()) \/
  _next s = (_next_loop (length (_queue s)) s, Normal ()).
Proof.
  intros Hne. destruct (_runPromise s) as [p|] eqn:Hrp.
  - destruct (_next_active s p Hrp) as [[_ ->] | [[? _] | [? _]]]; by auto.
  - left. by apply _next_inactive.
Qed.

Lemma after_next_live_registry s :
  _processing s ≠ ∅ -> _processing (after_next (_next s)) = _processing s.
Proof.
  intros Hne. destruct (_next_live s Hne) as [-> | ->]; simpl; [done|].
  apply _next_loop_same_cycle.
Qed.

(** A step never moves a settled handle. *)
Lemma after_next_heap_mono s : store_le (heap s) (heap (after_next (_next s))).
Proof.
  destruct (_runPromise s) as [p|] eqn:Hrp.
  - destruct (_next_loop_same_cycle (length (_queue s)) s)
      as (_ & Hheap & _).
    destruct (_next_active s p Hrp)
      as [[_ ->] | [(_ & _ & ->) | (_ & d & _ & ->)]]; simpl;
      rewrite Hheap; auto with pq.
    unfold resolve. auto with pq.
  - rewrite _next_inactive by done. simpl. auto with pq.
Qed.

Lemma step_heap_mono ev s : store_le (heap s) (heap (step ev s)).
Proof.
  destruct ev as [key args| |i o]; simpl.
  - unfold add. destruct (_processing s !! key); simpl; [auto with pq|].
    destruct (bool_decide _ && num_lt _ _); simpl; [|auto with pq].
    match goal with
    | |- context [_runJob ?k ?a ?s1] =>
        destruct (_runJob_same_cycle k a s1) as (_ & -> & _)
    end. simpl. auto with pq.
  - unfold run. destruct (_runPromise s) eqn:Hrp; simpl; [auto with pq|].
    match goal with
    | |- context [_next ?s1] =>
        pose proof (after_next_heap_mono s1) as Hm;
        destruct (_next s1) as [s2 [[]|x]]
    end; simpl in *;
      (eapply store_le_trans; [apply store_le_alloc | exact Hm]).
  - destruct (inflight s !! i) as [a|]; [|auto with pq].
    unfold _runJob_resume. destruct o as [|err].
    + eapply store_le_trans; [|apply after_next_heap_mono]. simpl.
      unfold resolve. auto with pq.
    + simpl. destruct (_retry s && negb _).
      * eapply store_le_trans; [|apply after_next_heap_mono]. simpl.
        auto with pq.
      * unfold reject. destruct (_deferred s); simpl; [|auto with pq].
        eapply store_le_trans; apply store_le_settle.
Qed.

Lemma exec_heap_mono evs s : store_le (heap s) (heap (exec evs s)).
Proof.
  revert s. induction evs as [|ev evs IH]; intros s; simpl; [auto with pq|].
  eapply store_le_trans; [apply step_heap_mono | apply IH].
Qed.

Lemma exec_reachable evs s : reachable s -> reachable (exec evs s).
Proof.
  revert s. induction evs as [|ev evs IH]; intros s Hs; simpl; [done|].
  by apply IH, reachable_step.
Qed.

(** *** Admission control *)

(** C1: for every configured limit, in every reachable state the number
    of jobs executing their worker call, which is what [_numRunning]
    counts, is at most [_maxConcurrent]; and whichever operation comes
    next ([add], [run], the settlement of a worker, with the admissions
    they trigger), the bound holds again afterwards. *)
Theorem running_count_within_limit s :
  reachable s ->
  _numRunning s = Z.of_nat (length (inflight s)) /\
  num_le (_numRunning s) (_maxConcurrent s) = true /\
  forall ev,
    num_le (_numRunning (step ev s)) (_maxConcurrent (step ev s)) = true.
Proof.
  intros Hs. split; [|split].
  - apply reachable_inv in Hs. apply Hs.
  - apply reachable_inv in Hs. apply Hs.
  - intros ev. apply (reachable_step ev), reachable_inv in Hs. apply Hs.
Qed.

(** *** Deduplication *)

Lemma add_existing s key args j :
  _processing s !! key = Some j -> add key args s = (s, job_promise j).
Proof. intros Hj. unfold add. by rewrite Hj. Qed.

Lemma add_new_registry s key args :
  _processing s !! key = None ->
  _processing (add key args s).1 !! key =
    Some {| job_deferred := (add key args s).2;
            job_promise := (add key args s).2;
            job_retried := false |}.
Proof.
  intros Hj. unfold add. rewrite Hj. simpl.
  destruct (bool_decide _ && num_lt _ _); simpl.
  - match goal with
    | |- context [_runJob ?k ?a ?s1] =>
        destruct (_runJob_same_cycle k a s1) as (-> & _)
    end. simpl. by rewrite lookup_insert_eq.
  - by rewrite lookup_insert_eq.
Qed.

Lemma retry_registry s i a err :
  inflight s !! i = Some a -> _retry s = true ->
  job_retried (act_job a) = false ->
  _processing (step (Settle i (Rejects err)) s) !! act_key a =
    Some {| job_deferred := job_deferred (act_job a);
            job_promise := job_promise (act_job a);
            job_retried := true |}.
Proof.
  intros Ha Hretry Hfirst. simpl. rewrite Ha. unfold _runJob_resume. simpl.
  rewrite Hretry, Hfirst. simpl.
  rewrite after_next_live_registry; simpl.
  - by rewrite lookup_insert_eq.
  - apply insert_non_empty.
Qed.

(** What [add] does on a registered key, one call at a time: it returns
    the completion handle of the registered job and leaves the whole
    state as it was, no worker call is logged and no job is created; right
    after the [add] that created the job this is the handle that [add]
    returned; and after a failed first attempt has been re-queued, the
    job registered under the key of the attempt has the attempt's
    handle. *)
Theorem add_is_deduplicated :
  (forall s key args h,
      outstanding_handle s key = Some h -> add key args s = (s, h)) /\
  (forall s key args args',
      _processing s !! key = None ->
      add key args' (add key args s).1 =
        ((add key args s).1, (add key args s).2)) /\
  (forall s i a err args',
      inflight s !! i = Some a -> _retry s = true ->
      job_retried (act_job a) = false ->
      let s' := step (Settle i (Rejects err)) s in
      outstanding_handle s' (act_key a) = Some (job_promise (act_job a)) /\
      add (act_key a) args' s' = (s', job_promise (act_job a))).
Proof.
  split; [|split].
  - intros s key args h. unfold outstanding_handle.
    destruct (_processing s !! key) as [j|] eqn:Hj; [|done].
    intros [= <-]. by apply add_existing.
  - intros s key args args' Hnew.
    by rewrite (add_existing _ _ _ _ (add_new_registry s key args Hnew)).
  - intros s i a err args' Ha Hretry Hfirst s'.
    pose proof (retry_registry s i a err Ha Hretry Hfirst) as Hreg.
    fold s' in Hreg. split.
    + unfold outstanding_handle. by rewrite Hreg.
    + by rewrite (add_existing _ _ _ _ Hreg).
Qed.

(** *** run *)

Lemma run_active s h : _runPromise s = Some h -> run s = (s, Normal h).
Proof. intros Hrp. unfold run. by rewrite Hrp. Qed.

Lemma run_returns_cycle_handle s s1 h :
  run s = (s1, Normal h) -> is_Some (_runPromise s1) ->
  _runPromise s1 = Some h.
Proof.
  unfold run. destruct (_runPromise s) as [p|] eqn:Hrp.
  - by intros [= <- <-] _.
  - simpl.
    match goal with
    | |- context [_next ?s0] =>
        destruct (_next_loop_same_cycle (length (_queue s0)) s0)
          as (_ & _ & Hrun & _);
        destruct (_next_active s0 (length (heap s)) eq_refl)
          as [[_ ->] | [(_ & _ & ->) | (_ & d & _ & ->)]]
    end; simpl.
    + by intros [= <- <-] _.
    + done.
    + intros [= <- <-] [? ?]. done.
Qed.

Lemma after_next_runPromise s :
  _runPromise (after_next (_next s)) = _runPromise s \/
  _runPromise (after_next (_next s)) = None.
Proof.
  destruct (_runPromise s) as [p|] eqn:Hrp.
  - destruct (_next_loop_same_cycle (length (_queue s)) s)
      as (_ & _ & Hrun & _).
    destruct (_next_active s p Hrp)
      as [[_ ->] | [(_ & _ & ->) | (_ & d & _ & ->)]]; simpl;
      rewrite ?Hrun, ?Hrp; auto.
  - rewrite _next_inactive by done. simpl. auto.
Qed.

(** Within a step a cycle may end, never change its handle. *)
Lemma step_runPromise ev s h :
  _runPromise s = Some h ->
  _runPromise (step ev s) = Some h \/ _runPromise (step ev s) = None.
Proof.
  intros Hrp. destruct ev as [key args| |i o]; simpl.
  - left. unfold add. destruct (_processing s !! key); simpl; [done|].
    destruct (bool_decide _ && num_lt _ _); simpl; [|done].
    match goal with
    | |- context [_runJob ?k ?a ?s1] =>
        destruct (_runJob_same_cycle k a s1) as (_ & _ & -> & _)
    end. done.
  - left. by rewrite (run_active s h).
  - destruct (inflight s !! i) as [a|]; [|by left].
    unfold _runJob_resume. destruct o as [|err]; simpl.
    + match goal with
      | |- context [_next ?s1] =>
          destruct (after_next_runPromise s1) as [-> | ->]
      end; simpl; auto.
    + destruct (_retry s && negb _).
      * match goal with
        | |- context [_next ?s1] =>
            destruct (after_next_runPromise s1) as [-> | ->]
        end; simpl; auto.
      * right. by destruct (_deferred s).
Qed.

Lemma exec_runPromise evs s h :
  _runPromise s = Some h ->
  (forall n, is_Some (_runPromise (exec (take n evs) s))) ->
  _runPromise (exec evs s) = Some h.
Proof.
  revert s. induction evs as [|ev evs IH]; intros s Hrp Hact; simpl; [done|].
  apply IH.
  - destruct (step_runPromise ev s h Hrp) as [Hh | Hn]; [done|].
    destruct (Hact 1%nat) as [p Hp]. simpl in Hp. congruence.
  - intros n. apply (Hact (S n)).
Qed.

(** C7: once [run] has returned a handle, for as long as the cycle stays
    active every further call of [run] returns that same handle, and
    changes nothing: no new cycle is started. *)
Theorem run_is_idempotent_while_active s s1 h evs :
  run s = (s1, Normal h) ->
  (forall n, is_Some (_runPromise (exec (take n evs) s1))) ->
  run (exec evs s1) = (exec evs s1, Normal h).
Proof.
  intros Hrun Hact. apply run_active, exec_runPromise; [|done].
  eapply run_returns_cycle_handle; [done|]. apply (Hact 0%nat).
Qed.

(** *** Construction *)

(** C8: the constructor throws, and then a [TypeError], exactly when a
    limit is given and is zero or negative.  Without a limit the queue
    gets [Infinity], below which every count lies; without a [retry]
    option retry is on. *)
Theorem constructor_validates_limit options :
  let opts := default {| maxConcurrent := None; retry := None |} options in
  ((exists x, (constructor options : completion state) = Throw x) <->
   (exists m, maxConcurrent opts = Some m /\ m <= 0)) /\
  (forall x, (constructor options : completion state) = Throw x ->
             x = TypeError "maxConcurrent must be a positive, non-zero value") /\
  (forall s, constructor options = Normal s ->
     (maxConcurrent opts = None ->
      _maxConcurrent s = Infinity /\
      forall n, num_lt n (_maxConcurrent s) = true) /\
     (forall m, maxConcurrent opts = Some m ->
                _maxConcurrent s = Finite m /\ 0 < m) /\
     (retry opts = None -> _retry s = true) /\
     (forall b, retry opts = Some b -> _retry s = b)).
Proof.
  intros opts. unfold constructor. fold opts.
  destruct (maxConcurrent opts) as [m|] eqn:Hm;
    [destruct (m <=? 0) eqn:Hle|].
  - split; [split|split].
    + intros _. exists m. split; [done | lia].
    + intros _. by eexists.
    + by intros x [= <-].
    + by intros s.
  - split; [split|split].
    + by intros [x ?].
    + intros (m' & [= <-] & ?). lia.
    + by intros x.
    + intros s [= <-]. simpl. split; [done|]. split; [|split].
      * intros m' [= <-]. split; [done | lia].
      * by intros ->.
      * by intros [] ->.
  - split; [split|split].
    + by intros [x ?].
    + by intros (m' & ? & _).
    + by intros x.
    + intros s [= <-]. simpl. split; [done|]. split; [done|]. split.
      * by intros ->.
      * by intros [] ->.
Qed.

(** *** add *)

Lemma add_runPromise s key args :
  _runPromise (add key args s).1 = _runPromise s.
Proof.
  unfold add. destruct (_processing s !! key); simpl; [done|].
  destruct (bool_decide _ && num_lt _ _); simpl; [|done].
  match goal with
  | |- context [_runJob ?k ?a ?s1] =>
      destruct (_runJob_same_cycle k a s1) as (_ & _ & -> & _)
  end. done.
Qed.

(** While no cycle is active, nothing but [run] calls the worker. *)
Lemma step_inactive_no_call ev s :
  _runPromise s = None -> ev ≠ Run ->
  _runPromise (step ev s) = None /\ calls (step ev s) = calls s.
Proof.
  intros Hrp Hev. destruct ev as [key args| |i o]; [|done|]; simpl.
  - split; [by rewrite add_runPromise|]. unfold add.
    destruct (_processing s !! key); simpl; [done|].
    rewrite Hrp. by rewrite bool_decide_eq_false_2 by (by intros [? ?]).
  - destruct (inflight s !! i) as [a|]; [|done].
    unfold _runJob_resume. destruct o as [|err]; simpl.
    + by rewrite _next_inactive.
    + destruct (_retry s && negb _).
      * by rewrite _next_inactive.
      * by destruct (_deferred s).
Qed.

Lemma exec_inactive_no_call evs s :
  _runPromise s = None -> Forall (fun ev => ev ≠ Run) evs ->
  _runPromise (exec evs s) = None /\ calls (exec evs s) = calls s.
Proof.
  revert s. induction evs as [|ev evs IH]; intros s Hrp Hevs; simpl; [done|].
  apply Forall_cons in Hevs as [Hev Hevs].
  destruct (step_inactive_no_call ev s Hrp Hev) as [Hrp' Hc].
  destruct (IH (step ev s) Hrp' Hevs) as [? ?]. split; congruence.
Qed.

(** C9: [add] for a key without outstanding job registers a new job
    under a fresh handle.  With a cycle active and a free slot the worker
    is called at once; otherwise the pair goes to the back of the queue;
    and with no cycle active it always goes to the queue, and no worker
    is called by whatever happens before the next [run]. *)
Theorem add_starts_or_queues s key args :
  _processing s !! key = None ->
  let s' := (add key args s).1 in
  let job := {| job_deferred := length (heap s);
                job_promise := length (heap s);
                job_retried := false |} in
  (add key args s).2 = length (heap s) /\
  _processing s' = <[key := job]> (_processing s) /\
  (is_Some (_runPromise s) ->
   num_lt (_numRunning s) (_maxConcurrent s) = true ->
   calls s' = calls s ++ [(key, args)] /\
   inflight s' =
     inflight s ++ [{| act_key := key; act_args := args; act_job := job |}] /\
   _numRunning s' = _numRunning s + 1 /\
   _queue s' = _queue s) /\
  (~ (is_Some (_runPromise s) /\
      num_lt (_numRunning s) (_maxConcurrent s) = true) ->
   _queue s' = _queue s ++ [(key, args)] /\
   calls s' = calls s /\ inflight s' = inflight s /\
   _numRunning s' = _numRunning s) /\
  (_runPromise s = None ->
   _queue s' = _queue s ++ [(key, args)] /\
   forall evs, Forall (fun ev => ev ≠ Run) evs ->
               calls (exec evs s') = calls s).
Proof.
  intros Hnew s' job.
  assert (Hinactive : _runPromise s = None ->
                      _queue s' = _queue s ++ [(key, args)] /\ calls s' = calls s).
  { intros Hrp. unfold s', add. rewrite Hnew. simpl. rewrite Hrp.
    by rewrite bool_decide_eq_false_2 by (by intros [? ?]). }
  split; [|split; [|split; [|split]]].
  - unfold add. by rewrite Hnew.
  - unfold s', add. rewrite Hnew. simpl.
    destruct (bool_decide _ && num_lt _ _); simpl; [|done].
    match goal with
    | |- context [_runJob ?k ?a ?s1] =>
        destruct (_runJob_same_cycle k a s1) as (-> & _)
    end. done.
  - intros Hact Hlt. unfold s', add. rewrite Hnew. simpl.
    rewrite bool_decide_eq_true_2, Hlt by done. simpl.
    unfold _runJob. simpl. by rewrite lookup_insert_eq.
  - intros Hno. unfold s', add. rewrite Hnew. simpl.
    destruct (bool_decide (is_Some (_runPromise s))) eqn:Hact; simpl;
      [|done].
    destruct (num_lt (_numRunning s) (_maxConcurrent s)) eqn:Hlt; [|done].
    exfalso. apply Hno. split; [by apply bool_decide_eq_true in Hact | done].
  - intros Hrp. destruct (Hinactive Hrp) as [Hq Hc]. split; [done|].
    intros evs Hevs.
    destruct (exec_inactive_no_call evs s') as [_ ->]; [|done|done].
    unfold s'. by rewrite add_runPromise.
Qed.

(** *** run on an empty registry *)

Lemma run_drained s :
  _runPromise s = None -> _processing s = ∅ ->
  let h := length (heap s) in
  let s' := (run s).1 in
  (run s).2 = Normal h /\ heap s' !! h = Some Fulfilled /\
  calls s' = calls s /\ inflight s' = inflight s /\
  _processing s' = ∅ /\ _runPromise s' = None /\ _deferred s' = None /\
  length (heap s') = S h.
Proof.
  intros Hrp Hemp h s'. unfold s', run. rewrite Hrp. simpl.
  match goal with
  | |- context [_next ?s0] =>
      destruct (_next_loop_same_cycle (length (_queue s0)) s0)
        as (_ & Hheap & _);
      destruct (_next_loop_empty_registry (length (_queue s0)) s0 Hemp)
        as (_ & Hfl & Hcalls);
      destruct (_next_active s0 (length (heap s)) eq_refl)
        as [[Hne _] | [(_ & Hd & _) | (_ & d & [= <-] & ->)]]
  end; [done | done |]. simpl in *.
  rewrite Hheap. unfold resolve. repeat split; try done.
  - apply lookup_settle_pending. by apply list_lookup_middle.
  - rewrite length_settle, length_app. simpl. lia.
Qed.

(** C10: [run] on a reachable state with an empty registry returns a
    handle that is fulfilled before [run] returns; no worker has been
    called, the cycle is over again, and the next [run] returns another
    handle, allocated after the first, whose settlement leaves the first
    one as it is. *)
Theorem run_on_empty_registry s :
  reachable s -> _processing s = ∅ ->
  let h := length (heap s) in
  let s' := (run s).1 in
  (run s).2 = Normal h /\ heap s' !! h = Some Fulfilled /\
  calls s' = calls s /\ inflight s' = inflight s /\
  _processing s' = ∅ /\ _runPromise s' = None /\ _deferred s' = None /\
  (run s').2 = Normal (S h) /\
  heap (run s').1 !! h = Some Fulfilled /\
  heap (run s').1 !! S h = Some Fulfilled.
Proof.
  intros Hs Hemp h s'.
  assert (Hrp : _runPromise s = None).
  { destruct (_runPromise s) as [p|] eqn:Hrp; [|done].
    destruct (inv_live s (reachable_inv s Hs)); [by rewrite Hrp | done]. }
  destruct (run_drained s Hrp Hemp)
    as (Hret & Hful & Hcalls & Hfl & Hemp' & Hrp' & Hdef' & Hlen).
  fold h s' in Hret, Hful, Hcalls, Hfl, Hemp', Hrp', Hdef', Hlen.
  destruct (run_drained s' Hrp' Hemp') as (Hret2 & Hful2 & _).
  rewrite Hlen in Hret2, Hful2.
  repeat split; try done.
  pose proof (step_heap_mono Run s') as Hmono. simpl in Hmono.
  by apply Hmono.
Qed.

(** *** Terminal failure *)

(** C3: when the worker of an activation fails and either retry is off
    or the job was already retried, the registry is left empty (so the
    job is gone from it), [reject] is applied with the worker's error to
    the job's handle and then to the handle of the active cycle, and the
    cycle is reset.  A job handle that was pending is now rejected with
    that error; the handle [run] returned for the active cycle is
    rejected with it and keeps this error whatever happens later. *)
Theorem terminal_failure_rejects s i a err :
  reachable s -> inflight s !! i = Some a ->
  _retry s = false \/ job_retried (act_job a) = true ->
  let s' := step (Settle i (Rejects err)) s in
  let job_heap := reject (job_deferred (act_job a)) err (heap s) in
  _processing s' = ∅ /\ _runPromise s' = None /\ _deferred s' = None /\
  heap s' =
    match _deferred s with
    | Some d => reject d err job_heap
    | None => job_heap
    end /\
  (heap s !! job_deferred (act_job a) = Some Pending ->
   heap s' !! job_deferred (act_job a) = Some (Rejected err)) /\
  (forall h, _runPromise s = Some h ->
     run s = (s, Normal h) /\
     heap s' !! h = Some (Rejected err) /\
     forall evs, heap (exec evs s') !! h = Some (Rejected err)).
Proof.
  intros Hs Ha Hterm s' job_heap.
  destruct (reachable_inv s Hs) as [[Hc Hl Hcy Hp Hr Hi] _ _].
  assert (Hcond : _retry s && negb (job_retried (act_job a)) = false).
  { destruct Hterm as [-> | ->]; [done | by rewrite andb_false_r]. }
  assert (Hheap : heap s' =
                  match _deferred s with
                  | Some d => reject d err job_heap
                  | None => job_heap
                  end).
  { unfold s'. simpl. rewrite Ha. unfold _runJob_resume. simpl.
    rewrite Hcond. by destruct (_deferred s). }
  assert (Hjob : job_heap !! job_deferred (act_job a) = Some (Rejected err) ->
                 heap s' !! job_deferred (act_job a) = Some (Rejected err)).
  { intros Hrej. rewrite Hheap. destruct (_deferred s); [|done].
    by apply lookup_settle_settled. }
  split; [|split; [|split; [|split; [|split]]]]; try done.
  - unfold s'. simpl. rewrite Ha. unfold _runJob_resume. simpl.
    rewrite Hcond. by destruct (_deferred s).
  - unfold s'. simpl. rewrite Ha. unfold _runJob_resume. simpl.
    rewrite Hcond. by destruct (_deferred s).
  - unfold s'. simpl. rewrite Ha. unfold _runJob_resume. simpl.
    rewrite Hcond. by destruct (_deferred s).
  - intros Hpend. apply Hjob. by apply lookup_settle_pending.
  - intros h Hrp.
    assert (Hrej : heap s' !! h = Some (Rejected err)).
    { rewrite Hheap, Hcy, Hrp. apply lookup_settle_pending.
      unfold job_heap, reject. rewrite lookup_settle_ne; [by apply Hp|].
      intros Heq. apply (proj2 (Hi a (list_elem_of_lookup_2 _ _ _ Ha))).
      by rewrite Hrp, Heq. }
    split; [by apply run_active|]. split; [done|].
    intros evs. by apply (exec_heap_mono evs s').
Qed.

(** *** The end of a cycle *)

(** [_next] ends the cycle only by finding the registry empty; the
    loop has then thrown on every entry it shifted, and with a slot free
    on entry it has shifted them all. *)
Lemma after_next_ends_cycle s p :
  _runPromise s = Some p ->
  _runPromise (after_next (_next s)) = None ->
  let s' := after_next (_next s) in
  _processing s = ∅ /\ _processing s' = ∅ /\ _deferred s' = None /\
  _numRunning s' = _numRunning s /\
  (num_lt (_numRunning s) (_maxConcurrent s) = true -> _queue s' = []).
Proof.
  intros Hrp Hend s'. unfold s' in *. clear s'.
  destruct (_next_loop_same_cycle (length (_queue s)) s)
    as (_ & _ & Hrun & _ & _ & Hmax).
  pose proof (_next_loop_exit (length (_queue s)) s (le_n _)) as Hexit.
  destruct (_next_active s p Hrp)
    as [[_ Hn] | [(_ & _ & Hn) | (Hemp & d & _ & Hn)]];
    rewrite Hn in *; simpl in *; [congruence | congruence |].
  destruct (_next_loop_empty_registry (length (_queue s)) s Hemp)
    as (Hcount & _).
  repeat split; try done.
  intros Hlt. destruct Hexit as [Hq | Hfull]; [done|].
  rewrite Hcount, Hmax in Hfull. congruence.
Qed.

(** C6 (amended): when a step ends the active cycle, the registry is
    empty and the cycle handle is absent afterwards.  The running count
    is not reset: it has lost the slot of the job that settled and still
    equals the number of worker calls in flight.  When the cycle ends
    because the last job succeeded, the queue is empty. *)
Theorem cycle_end_resets_registry_and_handle s ev :
  reachable s -> is_Some (_runPromise s) ->
  _runPromise (step ev s) = None ->
  let s' := step ev s in
  _processing s' = ∅ /\ _deferred s' = None /\
  _numRunning s' = _numRunning s - 1 /\
  _numRunning s' = Z.of_nat (length (inflight s')) /\
  (forall i, ev = Settle i Resolves -> _queue s' = []).
Proof.
  intros Hs [p Hrp] Hend s'.
  pose proof (inv_count _ (inv_of_base _
                (reachable_inv _ (reachable_step ev s Hs)))) as Hcount.
  pose proof (inv_limit _ (inv_of_base _ (reachable_inv _ Hs))) as Hlimit.
  unfold s' in *. clear s'. destruct ev as [key args| |i o].
  - simpl in Hend. rewrite add_runPromise in Hend. congruence.
  - simpl in Hend. rewrite (run_active s p Hrp) in Hend. simpl in Hend.
    congruence.
  - revert Hend Hcount. simpl. destruct (inflight s !! i) as [a|] eqn:Ha;
      [|congruence].
    unfold _runJob_resume. destruct o as [|err]; simpl.
    + intros Hend Hcount.
      match type of Hend with
      | context [_next ?s3] =>
          destruct (after_next_ends_cycle s3 p Hrp Hend)
            as (_ & Hreg & Hdef & Hnum & Hq)
      end. simpl in Hnum, Hq.
      repeat split; try done. intros _ _. by apply Hq, num_le_pred_lt.
    + destruct (_retry s && negb (job_retried (act_job a))).
      * intros Hend Hcount.
        match type of Hend with
        | context [_next ?s3] =>
            destruct (after_next_ends_cycle s3 p Hrp Hend) as (Hreg & _)
        end. simpl in Hreg. by apply insert_non_empty in Hreg.
      * intros _ Hcount. by destruct (_deferred s).
Qed.

(** *** Retry *)

(** What a first failure does when retry is on: the counter is
    decremented, the registry entry is replaced by one with the same
    handles and [retried] set, the pair is pushed at the back of the
    queue, and [_next] runs. *)
Lemma retry_requeues s i a err :
  inflight s !! i = Some a -> _retry s = true ->
  job_retried (act_job a) = false ->
  let pushed :=
    set_queue (_queue s ++ [(act_key a, act_args a)])
      (set_processing
         (<[act_key a := {| job_deferred := job_deferred (act_job a);
                            job_promise := job_promise (act_job a);
                            job_retried := true |}]> (_processing s))
         (set_numRunning (_numRunning s - 1)
            (set_inflight (delete i (inflight s)) s))) in
  step (Settle i (Rejects err)) s = after_next (_next pushed) /\
  heap (step (Settle i (Rejects err)) s) = heap s /\
  exists admitted,
    _queue s ++ [(act_key a, act_args a)] =
    admitted ++ _queue (step (Settle i (Rejects err)) s).
Proof.
  intros Ha Hretry Hfirst pushed.
  assert (Hstep : step (Settle i (Rejects err)) s = after_next (_next pushed)).
  { simpl. rewrite Ha. unfold _runJob_resume. simpl.
    by rewrite Hretry, Hfirst. }
  rewrite Hstep. split; [done|].
  assert (Hne : _processing pushed ≠ ∅) by apply insert_non_empty.
  destruct (_next_live pushed Hne) as [-> | ->]; unfold after_next.
  - split; [done|]. by exists [].
  - destruct (_next_loop_same_cycle (length (_queue pushed)) pushed)
      as (_ & Hheap & _).
    split; [exact Hheap|]. apply (_next_loop_suffix _ pushed).
Qed.

(** An attempt admitted from the replaced entry fails terminally. *)
Lemma retried_attempt_is_terminal s i a err :
  inflight s !! i = Some a -> job_retried (act_job a) = true ->
  _processing (step (Settle i (Rejects err)) s) = ∅ /\
  _queue (step (Settle i (Rejects err)) s) = _queue s /\
  calls (step (Settle i (Rejects err)) s) = calls s.
Proof.
  intros Ha Hretried. simpl. rewrite Ha. unfold _runJob_resume. simpl.
  rewrite Hretried, andb_false_r. by destruct (_deferred s).
Qed.

Lemma reachable_fresh_unbounded retrying :
  reachable (fresh_queue Infinity retrying : state).
Proof.
  apply (reachable_new (Some {| maxConcurrent := None;
                                retry := Some retrying |})).
  unfold constructor. simpl. by destruct retrying.
Qed.

Lemma reachable_fresh_bounded m retrying :
  0 < m -> reachable (fresh_queue (Finite m) retrying : state).
Proof.
  intros Hm.
  apply (reachable_new (Some {| maxConcurrent := Some m;
                                retry := Some retrying |})).
  unfold constructor. simpl.
  destruct (m <=? 0) eqn:Hle; [lia|]. by destruct retrying.
Qed.

(** *** Handles that nothing settles *)

Lemma unowned_runJob h key args s :
  unowned h s -> unowned h (_runJob key args s).
Proof.
  intros (Hp & Hd & Hr & Hi). unfold _runJob.
  destruct (_processing s !! key) as [job|] eqn:Hk; [|done].
  split; [done|]. split; [done|]. split; [done|]. simpl.
  intros a [Ha | ->%list_elem_of_singleton]%elem_of_app;
    [by apply Hi | simpl; by eapply Hr].
Qed.

Lemma unowned_next_loop h fuel s :
  unowned h s -> unowned h (_next_loop fuel s).
Proof.
  apply (_next_loop_preserves (unowned h)).
  - by intros s' q Hs'.
  - intros key args s' Hs' _. by apply unowned_runJob.
Qed.

Lemma unowned_after_next h s :
  unowned h s -> unowned h (after_next (_next s)).
Proof.
  intros Hu. unfold _next. destruct (_runPromise s); [|done].
  pose proof (unowned_next_loop h (length (_queue s)) s Hu)
    as (Hp & Hd & Hr & Hi).
  destruct (decide _); [|done].
  destruct (_deferred _) as [d|] eqn:Hdef; simpl;
    [|repeat split; simpl; [done | by rewrite Hdef | done | done]].
  split; [|done]. simpl. unfold resolve.
  rewrite lookup_settle_ne; [done | congruence].
Qed.

Lemma unowned_step h ev s : unowned h s -> unowned h (step ev s).
Proof.
  intros (Hp & Hd & Hr & Hi).
  pose proof (lookup_lt_Some _ _ _ Hp) as Hlt.
  destruct ev as [key args| |i o]; simpl.
  - unfold add. destruct (_processing s !! key) as [j|] eqn:Hk; simpl; [done|].
    match goal with
    | |- unowned h (if _ then _runJob ?k ?a ?s1 else _) =>
        assert (Hu1 : unowned h s1)
    end.
    { split; simpl; [by apply lookup_app_l_Some|]. split; [done|].
      split; [|done]. intros k j [[<- <-] | [_ Hj]]%lookup_insert_Some; simpl;
        [lia | by eapply Hr]. }
    destruct (bool_decide _ && num_lt _ _); [by apply unowned_runJob | done].
  - unfold run. destruct (_runPromise s) as [p|]; [done|]. simpl.
    match goal with
    | |- context [_next ?s1] =>
        assert (Hu1 : unowned h s1);
        [| pose proof (unowned_after_next h s1 Hu1) as Hn;
           destruct (_next s1) as [s2 [[]|x]]; exact Hn]
    end.
    split; simpl; [by apply lookup_app_l_Some|].
    split; [intros [= Heq]; lia | done].
  - destruct (inflight s !! i) as [a|] eqn:Ha; [|done].
    pose proof (Hi a (list_elem_of_lookup_2 _ _ _ Ha)) as Hne.
    assert (Hdel : forall b, b ∈ delete i (inflight s) -> b ∈ inflight s).
    { intros b Hb. by eapply list_elem_of_delete_inv. }
    unfold _runJob_resume. destruct o as [|err]; simpl.
    + apply unowned_after_next. split; simpl.
      { unfold resolve. by rewrite lookup_settle_ne. }
      split; [done|]. split; [|by intros b Hb; apply Hi, Hdel].
      intros k j [_ Hj]%lookup_delete_Some. by eapply Hr.
    + destruct (_retry s && negb (job_retried (act_job a))).
      * apply unowned_after_next. split; [done|]. split; [done|]. simpl.
        split; [|by intros b Hb; apply Hi, Hdel].
        intros k j [[<- <-] | [_ Hj]]%lookup_insert_Some; simpl;
          [done | by eapply Hr].
      * destruct (_deferred s) as [d|] eqn:Hdef; simpl.
        -- split; simpl.
           { unfold reject. rewrite !lookup_settle_ne; [done.. | congruence]. }
           split; [done|]. split; [done|]. by intros b Hb; apply Hi, Hdel.
        -- split; simpl.
           { unfold reject. by rewrite lookup_settle_ne. }
           split; [done|]. split; [done|]. by intros b Hb; apply Hi, Hdel.
Qed.

Lemma unowned_exec h evs s : unowned h s -> unowned h (exec evs s).
Proof.
  revert s. induction evs as [|ev evs IH]; intros s Hs; simpl; [done|].
  by apply IH, unowned_step.
Qed.

End Scheduler.

(** ** Concrete runs, evaluated *)

Lemma reachable_two_running : reachable two_running.
Proof. apply exec_reachable, reachable_fresh_unbounded. Qed.

Lemma reachable_one_running_one_pending : reachable one_running_one_pending.
Proof. apply exec_reachable, reachable_fresh_bounded. lia. Qed.

Lemma reachable_doubly_admitted : reachable doubly_admitted.
Proof. apply exec_reachable, reachable_fresh_bounded. lia. Qed.

Lemma reachable_call_outlives_cycle : reachable call_outlives_cycle.
Proof. apply exec_reachable, reachable_fresh_unbounded. Qed.

(** C2: the code does not keep this.  In [call_outlives_cycle] the cycle
    has ended by a terminal failure while the worker call made for the
    first job of key 2 (handle 1) is still in flight.  [add] for key 2
    then finds no job, creates one and returns handle 3.  The call in
    flight fails next: its retry branch stores the job it captured under
    key 2, in place of the job just created.  Key 2 is registered before
    and after this, and [add] for key 2 now returns handle 1.  No worker
    call was made for the job of handle 3, and whatever happens from
    here on, handle 3 stays pending. *)
Example add_returns_another_handle :
  let s1 := (add 2%nat [] call_outlives_cycle).1 in
  let s2 := step (Settle 0 (Rejects 8%nat)) s1 in
  reachable call_outlives_cycle /\
  _retry call_outlives_cycle = true /\
  _processing call_outlives_cycle !! 2%nat = None /\
  (add 2%nat [] call_outlives_cycle).2 = 3%nat /\
  outstanding_handle s1 2%nat = Some 3%nat /\
  outstanding_handle s2 2%nat = Some 1%nat /\
  add 2%nat [] s2 = (s2, 1%nat) /\
  calls s2 = calls call_outlives_cycle /\
  forall evs : list qevent, heap (exec evs s2) !! 3%nat = Some Pending.
Proof.
  split; [apply reachable_call_outlives_cycle|].
  do 7 (split; [by vm_compute|]).
  intros evs.
  apply (unowned_exec 3%nat evs
           (step (Settle 0 (Rejects 8%nat))
              (add 2%nat [] call_outlives_cycle).1)).
  split; [by vm_compute|]. split; [by vm_compute|]. split.
  - intros k j Hk.
    assert (Hreg : _processing
                     (step (Settle 0 (Rejects 8%nat))
                        (add 2%nat [] call_outlives_cycle).1) =
                   {[ 2%nat := {| job_deferred := 1%nat; job_promise := 1%nat;
                                  job_retried := true |} ]})
      by (by vm_compute).
    rewrite Hreg in Hk. apply lookup_singleton_Some in Hk as [_ <-]. done.
  - intros a Ha.
    assert (Hfl : inflight
                    (step (Settle 0 (Rejects 8%nat))
                       (add 2%nat [] call_outlives_cycle).1) = [])
      by (by vm_compute).
    rewrite Hfl in Ha. by apply elem_of_nil in Ha.
Qed.

(** C5: the code does not keep this invariant.  After a terminal failure
    the registry is empty while the entry of job 2, never started, is
    still in the queue; the next [run] shifts it and [nullthrows] throws
    inside [_runJob], and the handle that [add] returned for job 2 stays
    pending. *)
Example pending_entry_without_registry_entry :
  reachable after_terminal_failure /\
  _queue after_terminal_failure = [(2%nat, [])] /\
  _processing after_terminal_failure !! 2%nat = None /\
  unhandled after_terminal_failure = [] /\
  calls (step Run after_terminal_failure) = [(1%nat, [])] /\
  unhandled (step Run after_terminal_failure) = [NullthrowsError] /\
  heap (step Run after_terminal_failure) !! 1%nat = Some Pending.
Proof.
  split; [|by vm_compute].
  apply reachable_step, reachable_one_running_one_pending.
Qed.

(** C4: the code does not keep this bound.  In [doubly_admitted] the job
    that the second [add] of key 2 created (handle 4) has two first
    attempts in flight at once, one admitted from the entry left behind by
    the reset.  Both fail and both are retried: the worker is called four
    times for this one job, and the failure of its second attempt is not
    terminal. *)
Example one_job_retried_twice :
  let job retried :=
    {| job_deferred := 4%nat; job_promise := 4%nat; job_retried := retried |} in
  let attempt retried : qactivation :=
    {| act_key := 2%nat; act_args := []; act_job := job retried |} in
  let s' := exec [Settle 0 (Rejects 8%nat); Settle 0 (Rejects 9%nat)]
              doubly_admitted in
  reachable doubly_admitted /\
  _retry doubly_admitted = true /\
  inflight doubly_admitted = [attempt false; attempt false] /\
  calls doubly_admitted =
    [(1, []); (2, []); (3, []); (1, []); (2, []); (2, [])]%nat /\
  inflight s' = [attempt true; attempt true] /\
  calls s' = (calls doubly_admitted ++ [(2, []); (2, [])])%nat /\
  is_Some (_runPromise s') /\
  heap s' !! 4%nat = Some Pending.
Proof.
  split; [apply reachable_doubly_admitted|].
  vm_compute. repeat split; by eauto.
Qed.

(** C6 as stated fails: the failure of job 1 ends the cycle of
    [two_running], and the running count is 1 afterwards, for job 2 is
    still in flight. *)
Lemma cycle_end_keeps_running_count :
  reachable two_running /\
  is_Some (_runPromise two_running) /\
  _runPromise (step (Settle 0 (Rejects 7%nat)) two_running) = None /\
  _numRunning (step (Settle 0 (Rejects 7%nat)) two_running) = 1 /\
  ~ (_queue (step (Settle 0 (Rejects 7%nat)) two_running) = [] /\
     _processing (step (Settle 0 (Rejects 7%nat)) two_running) = ∅ /\
     _numRunning (step (Settle 0 (Rejects 7%nat)) two_running) = 0 /\
     _deferred (step (Settle 0 (Rejects 7%nat)) two_running) = None).
Proof.
  split; [apply reachable_two_running|].
  split; [by eexists|]. split; [done|]. split; [done|].
  by intros (_ & _ & ? & _).
Qed.

(** ** The theorems at concrete queues *)

Lemma running_count_within_limit_witness :
  _numRunning one_running_one_pending =
    Z.of_nat (length (inflight one_running_one_pending)) /\
  num_le (_numRunning one_running_one_pending)
         (_maxConcurrent one_running_one_pending) = true /\
  forall ev : qevent,
    num_le (_numRunning (step ev one_running_one_pending))
           (_maxConcurrent (step ev one_running_one_pending)) = true.
Proof.
  apply (running_count_within_limit one_running_one_pending).
  apply exec_reachable, reachable_fresh_bounded. lia.
Defined.

Lemma add_is_deduplicated_witness :
  add 1%nat [5%nat] one_running_one_pending = (one_running_one_pending, 0%nat) /\
  add 1%nat [5%nat] (add 1%nat [] (fresh_queue Infinity true : qstate)).1 =
    ((add 1%nat [] (fresh_queue Infinity true : qstate)).1, 0%nat) /\
  add 1%nat [5%nat] (step (Settle 0 (Rejects 7%nat)) one_running_retrying) =
    (step (Settle 0 (Rejects 7%nat)) one_running_retrying, 0%nat).
Proof.
  destruct (@add_is_deduplicated nat _ _ (list nat) nat) as (Hdup & Hnew & Hretry).
  split; [|split].
  - apply (Hdup one_running_one_pending 1%nat [5%nat] 0%nat). by vm_compute.
  - apply (Hnew (fresh_queue Infinity true) 1%nat [] [5%nat]). by vm_compute.
  - apply (Hretry one_running_retrying 0%nat
             {| act_key := 1%nat; act_args := [];
                act_job := {| job_deferred := 0; job_promise := 0;
                              job_retried := false |} |} 7%nat [5%nat]);
      by vm_compute.
Defined.

Lemma terminal_failure_rejects_witness :
  _processing (step (Settle 1 (Rejects 7%nat)) two_running) = ∅ /\
  heap (step (Settle 1 (Rejects 7%nat)) two_running) !! 1%nat =
    Some (Rejected 7%nat) /\
  heap (step (Settle 1 (Rejects 7%nat)) two_running) !! 2%nat =
    Some (Rejected 7%nat).
Proof.
  destruct (terminal_failure_rejects two_running 1%nat
              {| act_key := 2%nat; act_args := [];
                 act_job := {| job_deferred := 1; job_promise := 1;
                               job_retried := false |} |} 7%nat)
    as (Hreg & _ & _ & _ & Hjob & Hcycle).
  - apply exec_reachable, reachable_fresh_unbounded.
  - by vm_compute.
  - left. by vm_compute.
  - split; [exact Hreg|]. split.
    + apply Hjob. by vm_compute.
    + apply (Hcycle 2%nat). by vm_compute.
Defined.

Lemma cycle_end_resets_registry_and_handle_witness :
  _processing (step (Settle 0 Resolves) one_running_retrying) = ∅ /\
  _deferred (step (Settle 0 Resolves) one_running_retrying) = None /\
  _numRunning (step (Settle 0 Resolves) one_running_retrying) = 0 /\
  _queue (step (Settle 0 Resolves) one_running_retrying) = [].
Proof.
  destruct (cycle_end_resets_registry_and_handle one_running_retrying
              (Settle 0 Resolves))
    as (Hreg & Hdef & Hnum & _ & Hq).
  - apply exec_reachable, reachable_fresh_unbounded.
  - exists 1%nat. by vm_compute.
  - by vm_compute.
  - split; [exact Hreg|]. split; [exact Hdef|]. split; [exact Hnum|].
    apply (Hq 0%nat). by vm_compute.
Defined.

Lemma run_is_idempotent_while_active_witness :
  run (exec [Add 2%nat []; Run]
         (run (exec [Add 1%nat []] (fresh_queue Infinity true : qstate))).1) =
    (exec [Add 2%nat []; Run]
       (run (exec [Add 1%nat []] (fresh_queue Infinity true : qstate))).1,
     Normal 1%nat).
Proof.
  apply (run_is_idempotent_while_active
           (exec [Add 1%nat []] (fresh_queue Infinity true : qstate))).
  - by vm_compute.
  - intros [|[|[|n]]]; exists 1%nat; by vm_compute.
Defined.

Lemma constructor_validates_limit_witness :
  (exists x, (constructor (Some {| maxConcurrent := Some 0; retry := None |})
              : completion qstate) = Throw x) /\
  (exists s : qstate,
      constructor None = Normal s /\ _maxConcurrent s = Infinity /\
      _retry s = true).
Proof.
  split.
  - apply (proj1 (constructor_validates_limit
                    (Some {| maxConcurrent := Some 0; retry := None |}))).
    exists 0. split; [reflexivity | lia].
  - exists (fresh_queue Infinity true). split; [reflexivity|].
    destruct (proj2 (proj2 (@constructor_validates_limit nat _ _ (list nat) nat
                              None))
                (fresh_queue Infinity true) eq_refl)
      as (Hmax & _ & Hretry & _).
    split; [apply Hmax | apply Hretry]; reflexivity.
Defined.

Lemma add_starts_or_queues_witness :
  (add 3%nat [] one_running_one_pending).2 = 3%nat /\
  _queue (add 3%nat [] one_running_one_pending).1 =
    [(2%nat, []); (3%nat, [])] /\
  calls (add 3%nat [] two_running).1 =
    [(1%nat, []); (2%nat, []); (3%nat, [])].
Proof.
  destruct (add_starts_or_queues one_running_one_pending 3%nat [])
    as (Hret & _ & _ & Hqueue & _); [by vm_compute|].
  destruct (add_starts_or_queues two_running 3%nat [])
    as (_ & _ & Hstart & _); [by vm_compute|].
  split; [exact Hret|]. split.
  - apply Hqueue. intros [_ Hlt]. vm_compute in Hlt. discriminate.
  - apply Hstart; [exists 2%nat|]; by vm_compute.
Defined.

Lemma run_on_empty_registry_witness :
  (run (fresh_queue Infinity true : qstate)).2 = Normal 0%nat /\
  heap (run (fresh_queue Infinity true : qstate)).1 !! 0%nat = Some Fulfilled /\
  (run (run (fresh_queue Infinity true : qstate)).1).2 = Normal 1%nat.
Proof.
  destruct (run_on_empty_registry (fresh_queue Infinity true : qstate))
    as (Hret & Hful & _ & _ & _ & _ & _ & Hnext & _).
  - apply reachable_fresh_unbounded.
  - reflexivity.
  - split; [exact Hret|]. split; [exact Hful | exact Hnext].
Defined.

(** ** More about the scheduler *)

Section SchedulerMore.

#[local] Set Warnings "-clear-no-such-hyp".

Context {TFirstArg : Type} `{Countable TFirstArg}.
Context {TRestArgs TErr : Type}.

Abbreviation state := (state TFirstArg TRestArgs TErr).
Abbreviation event := (event TFirstArg TRestArgs TErr).
Abbreviation activation := (activation TFirstArg TRestArgs).

Implicit Types (s : state) (ev : event) (a : activation) (j : Job).
Implicit Types (key k : TFirstArg) (args : TRestArgs) (h : handle).

Lemma constructor_fresh options s :
  constructor options = Normal s ->
  s = fresh_queue (_maxConcurrent s) (_retry s) /\
  num_lt 0 (_maxConcurrent s) = true.
Proof.
  unfold constructor. set (opts := default _ options).
  destruct (maxConcurrent opts) as [m|] eqn:Hm;
    [destruct (m <=? 0) eqn:Hle; [done|] |];
    intros [= <-]; simpl; split; try done. lia.
Qed.

(** *** No slot stays free while an entry waits *)

Lemma saturated_next s :
  is_Some (_runPromise (_next s).1) -> saturated (_next s).1.
Proof.
  destruct (_runPromise s) as [p|] eqn:Hrp.
  - pose proof (_next_loop_exit (length (_queue s)) s (le_n _)) as Hexit.
    destruct (_next_active s p Hrp)
      as [[_ ->] | [(_ & _ & ->) | (_ & d & _ & ->)]]; simpl; [done | done |].
    by intros [? ?].
  - rewrite _next_inactive by done. simpl. rewrite Hrp. by intros [? ?].
Qed.

Lemma saturated_after_next s :
  is_Some (_runPromise (after_next (_next s))) ->
  saturated (after_next (_next s)).
Proof.
  pose proof (saturated_next s) as Hs.
  destruct (_next s) as [s' [[]|x]]; simpl in *; done.
Qed.

Lemma saturated_step ev s :
  (is_Some (_runPromise s) -> saturated s) ->
  is_Some (_runPromise (step ev s)) -> saturated (step ev s).
Proof.
  intros Hs. destruct ev as [key args| |i o]; simpl.
  - rewrite add_runPromise. intros Hact. specialize (Hs Hact).
    unfold add. destruct (_processing s !! key); simpl; [done|].
    rewrite bool_decide_eq_true_2 by done. simpl.
    destruct (num_lt (_numRunning s) (_maxConcurrent s)) eqn:Hlt.
    + destruct Hs as [Hq | Hfull]; [|congruence]. left.
      by rewrite _runJob_queue.
    + by right.
  - unfold run. destruct (_runPromise s) as [p|] eqn:Hrp; [by auto|]. simpl.
    match goal with
    | |- context [_next ?s1] =>
        pose proof (saturated_next s1) as Hn; destruct (_next s1) as [s2 [[]|x]]
    end; done.
  - destruct (inflight s !! i) as [a|]; [|done].
    unfold _runJob_resume. destruct o as [|err]; simpl.
    + apply saturated_after_next.
    + destruct (_retry s && negb _); [apply saturated_after_next|].
      destruct (_deferred s); simpl; by intros [? ?].
Qed.

Lemma reachable_saturated s :
  reachable s -> is_Some (_runPromise s) -> saturated s.
Proof.
  induction 1 as [options s Hnew | ev s _ IH].
  - apply constructor_fresh in Hnew as [-> _]. by intros [p Hp].
  - by apply saturated_step.
Qed.

(** X1: while a cycle is active, an entry waits in the queue only if
    every slot is taken. *)
Theorem no_idle_slot_while_active s :
  reachable s -> is_Some (_runPromise s) ->
  _queue s = [] \/ num_lt (_numRunning s) (_maxConcurrent s) = false.
Proof. apply reachable_saturated. Qed.

(** *** Entries are started in the order of the queue *)







(** *** What is never thrown *)

Lemma only_nullthrows_next_loop fuel s :
  only_nullthrows (unhandled s) ->
  only_nullthrows (unhandled (_next_loop fuel s)).
Proof.
  apply (_next_loop_preserves (fun s' => only_nullthrows (unhandled s'))).
  - by intros s' q.
  - intros key args s' Hs' _. unfold _runJob.
    destruct (_processing s' !! key); simpl; [done|].
    apply Forall_app. split; [done|]. by repeat constructor.
Qed.

Lemma only_nullthrows_next s :
  only_nullthrows (unhandled s) -> only_nullthrows (unhandled (_next s).1).
Proof.
  intros Hs. destruct (_runPromise s) as [p|] eqn:Hrp.
  - pose proof (only_nullthrows_next_loop (length (_queue s)) s Hs) as Hl.
    destruct (_next_active s p Hrp)
      as [[_ ->] | [(_ & _ & ->) | (_ & d & _ & ->)]]; done.
  - by rewrite _next_inactive.
Qed.

(** With the two fields of the cycle in step, the assertion holds. *)
Lemma _next_no_throw s :
  _deferred s = _runPromise s -> (_next s).2 = Normal ().
Proof.
  intros Hcy. destruct (_runPromise s) as [p|] eqn:Hrp.
  - destruct (_next_active s p Hrp)
      as [[_ ->] | [(_ & Hd & _) | (_ & d & _ & ->)]]; [done | | done].
    congruence.
  - by rewrite _next_inactive.
Qed.

Lemma after_next_no_throw s :
  _deferred s = _runPromise s -> after_next (_next s) = (_next s).1.
Proof.
  intros Hcy. pose proof (_next_no_throw s Hcy) as Hn.
  destruct (_next s) as [s' c]. simpl in *. by subst c.
Qed.

Lemma run_returns s : exists h, (run s).2 = Normal h.
Proof.
  unfold run. destruct (_runPromise s) as [p|] eqn:Hrp; [by eexists|]. simpl.
  match goal with
  | |- context [_next ?s1] =>
      pose proof (_next_no_throw s1 eq_refl) as Hn;
      destruct (_next s1) as [s2 c]
  end. simpl in *. subst c. by eexists.
Qed.

Lemma only_nullthrows_step ev s :
  _deferred s = _runPromise s -> only_nullthrows (unhandled s) ->
  only_nullthrows (unhandled (step ev s)).
Proof.
  intros Hcy Hs. destruct ev as [key args| |i o]; simpl.
  - unfold add. destruct (_processing s !! key); simpl; [done|].
    destruct (bool_decide _ && num_lt _ _); simpl; [|done].
    unfold _runJob. simpl. by rewrite lookup_insert_eq.
  - unfold run. destruct (_runPromise s) as [p|] eqn:Hrp; [done|]. simpl.
    match goal with
    | |- context [_next ?s1] =>
        pose proof (only_nullthrows_next s1 Hs) as Hn;
        destruct (_next s1) as [s2 [[]|x]]
    end; done.
  - destruct (inflight s !! i) as [a|] eqn:Ha; [|done].
    unfold _runJob_resume. destruct o as [|err]; simpl.
    + rewrite after_next_no_throw by done. by apply only_nullthrows_next.
    + destruct (_retry s && negb (job_retried (act_job a))).
      * rewrite after_next_no_throw by done. by apply only_nullthrows_next.
      * by destruct (_deferred s).
Qed.

Lemma reachable_only_nullthrows s :
  reachable s -> only_nullthrows (unhandled s).
Proof.
  induction 1 as [options s Hnew | ev s Hs IH].
  - apply constructor_fresh in Hnew as [-> _]. constructor.
  - apply only_nullthrows_step; [|done].
    apply reachable_inv in Hs. apply Hs.
Qed.

(** *** Why a handle settles *)

Lemma lookup_settle_inv (v w : settlement TErr) x h (st : store TErr) :
  st !! h = Some Pending -> settle v x st !! h = Some w ->
  w = Pending \/ (x = h /\ w = v).
Proof.
  intros Hp Hw. destruct (decide (x = h)) as [->|Hne].
  - rewrite lookup_settle_pending in Hw by done. right. split; congruence.
  - rewrite lookup_settle_ne in Hw by done. left. congruence.
Qed.

Lemma lookup_settle_twice_inv (v1 v2 w : settlement TErr) x1 x2 h
    (st : store TErr) :
  st !! h = Some Pending -> v1 ≠ Pending ->
  settle v2 x2 (settle v1 x1 st) !! h = Some w ->
  w = Pending \/ (x1 = h /\ w = v1) \/ (x2 = h /\ w = v2).
Proof.
  intros Hp Hv1 Hw. destruct (decide (x1 = h)) as [->|Hne].
  - rewrite (lookup_settle_settled v2 x2 h _ v1) in Hw;
      [|by apply lookup_settle_pending|done].
    right. left. split; congruence.
  - destruct (lookup_settle_inv v2 w x2 h (settle v1 x1 st)) as [? | ?];
      [by rewrite lookup_settle_ne | done | by left | by right; right].
Qed.

Lemma _next_heap s :
  heap (_next s).1 = heap s \/
  exists d, _deferred s = Some d /\ heap (_next s).1 = resolve d (heap s).
Proof.
  destruct (_runPromise s) as [p|] eqn:Hrp.
  - destruct (_next_loop_same_cycle (length (_queue s)) s)
      as (_ & Hheap & _).
    destruct (_next_active s p Hrp)
      as [[_ ->] | [(_ & _ & ->) | (_ & d & Hd & ->)]]; simpl;
      rewrite Hheap; eauto.
  - rewrite _next_inactive by done. by left.
Qed.

Lemma after_next_heap s :
  heap (after_next (_next s)) = heap s \/
  exists d, _deferred s = Some d /\
            heap (after_next (_next s)) = resolve d (heap s).
Proof.
  pose proof (_next_heap s) as Hn. by destruct (_next s) as [s' [[]|x]].
Qed.

(** X4: a pending handle is fulfilled by a step only if it is the handle
    of the job whose worker has just resolved, or the handle of the cycle;
    it is rejected, with [err], only by a terminal failure with that very
    error, of its own job or, for the handle of the cycle, of any job. *)
Theorem handles_settle_for_cause s ev h :
  heap s !! h = Some Pending ->
  (heap (step ev s) !! h = Some Fulfilled ->
   _deferred s = Some h \/
   exists i a, ev = Settle i Resolves /\ inflight s !! i = Some a /\
               job_deferred (act_job a) = h) /\
  (forall err,
      heap (step ev s) !! h = Some (Rejected err) ->
      exists i a, ev = Settle i (Rejects err) /\ inflight s !! i = Some a /\
                  terminal ev s = true /\
                  (job_deferred (act_job a) = h \/ _deferred s = Some h)).
Proof.
  intros Hp.
  assert (Hkeep : forall w, (heap s ++ [Pending]) !! h = Some w -> w = Pending).
  { intros w. rewrite (lookup_app_l_Some _ _ _ _ Hp). congruence. }
  destruct ev as [key args| |i o]; simpl.
  - assert (Hadd : forall w, heap (add key args s).1 !! h = Some w ->
                             w = Pending).
    { unfold add. destruct (_processing s !! key); simpl; [congruence|].
      destruct (bool_decide _ && num_lt _ _); simpl; [|done].
      unfold _runJob. simpl. by rewrite lookup_insert_eq. }
    split; [intros Hf | intros err Hf]; by apply Hadd in Hf.
  - assert (Hrun : forall w, heap (run s).1 !! h = Some w -> w = Pending).
    { unfold run. destruct (_runPromise s); simpl; [congruence|].
      match goal with
      | |- context [_next ?s1] =>
          pose proof (_next_heap s1) as Hn; destruct (_next s1) as [s2 [[]|x]]
      end; simpl in *;
        (destruct Hn as [-> | (d & [= <-] & ->)]; [done|];
         intros w Hw; unfold resolve in Hw;
         rewrite lookup_settle_ne in Hw
           by (apply lookup_lt_Some in Hp; lia); by apply Hkeep). }
    split; [intros Hf | intros err Hf]; by apply Hrun in Hf.
  - destruct (inflight s !! i) as [a|] eqn:Ha;
      [|split; [intros Hf | intros err Hf]; congruence].
    unfold _runJob_resume. destruct o as [|err]; simpl.
    + assert (Hcases : forall w,
                 heap (after_next (_next
                   (set_numRunning (_numRunning s - 1)
                      (set_processing (delete (act_key a) (_processing s))
                         (set_heap (resolve (job_deferred (act_job a)) (heap s))
                            (set_inflight (delete i (inflight s)) s)))))) !! h
                 = Some w ->
                 w = Pending \/ (job_deferred (act_job a) = h /\ w = Fulfilled)
                 \/ (_deferred s = Some h /\ w = Fulfilled)).
      { intros w.
        match goal with
        | |- context [_next ?s1] =>
            destruct (after_next_heap s1) as [-> | (d & Hd & ->)]
        end; simpl in *; unfold resolve; intros Hw.
        - destruct (lookup_settle_inv _ _ _ _ _ Hp Hw) as [? | ?]; by auto.
        - destruct (lookup_settle_twice_inv Fulfilled Fulfilled w _ _ h _ Hp
                      ltac:(done) Hw) as [? | [? | [<- ?]]]; by auto. }
      split; [intros Hf | intros err Hf]; apply Hcases in Hf.
      * destruct Hf as [? | [[? _] | [? _]]]; [done | right | by left].
        by exists i, a.
      * by destruct Hf as [? | [[_ ?] | [_ ?]]].
    + destruct (_retry s && negb (job_retried (act_job a))) eqn:Hretry.
      * assert (Hcases : forall w,
                 heap (after_next (_next
                   (set_queue (_queue s ++ [(act_key a, act_args a)])
                      (set_processing
                         (<[act_key a :=
                              {| job_deferred := job_deferred (act_job a);
                                 job_promise := job_promise (act_job a);
                                 job_retried := true |}]> (_processing s))
                         (set_numRunning (_numRunning s - 1)
                            (set_inflight (delete i (inflight s)) s)))))) !! h
                 = Some w ->
                 w = Pending \/ (_deferred s = Some h /\ w = Fulfilled)).
        { intros w.
          match goal with
          | |- context [_next ?s1] =>
              destruct (after_next_heap s1) as [-> | (d & Hd & ->)]
          end; simpl in *; unfold resolve; intros Hw.
          - left. congruence.
          - destruct (lookup_settle_inv _ _ _ _ _ Hp Hw) as [? | [<- ?]];
              by auto. }
        split; [intros Hf | intros err' Hf]; apply Hcases in Hf.
        -- destruct Hf as [? | [? _]]; [done | by left].
        -- by destruct Hf as [? | [_ ?]].
      * assert (Hcases : forall w,
                 heap (_reset
                   match _deferred s with
                   | Some d =>
                       set_heap
                         (reject d err
                            (reject (job_deferred (act_job a)) err (heap s)))
                         (set_heap
                            (reject (job_deferred (act_job a)) err (heap s))
                            (set_processing
                               (delete (act_key a) (_processing s))
                               (set_numRunning (_numRunning s - 1)
                                  (set_inflight (delete i (inflight s)) s))))
                   | None =>
                       set_heap
                         (reject (job_deferred (act_job a)) err (heap s))
                         (set_processing (delete (act_key a) (_processing s))
                            (set_numRunning (_numRunning s - 1)
                               (set_inflight (delete i (inflight s)) s)))
                   end) !! h = Some w ->
                 w = Pending \/
                 (w = Rejected err /\
                  (job_deferred (act_job a) = h \/ _deferred s = Some h))).
        { intros w. unfold reject. destruct (_deferred s) as [d|]; simpl;
            intros Hw.
          - destruct (lookup_settle_twice_inv (Rejected err) (Rejected err)
                        w _ _ h _ Hp ltac:(done) Hw)
              as [? | [[? ?] | [<- ?]]]; by auto.
          - destruct (lookup_settle_inv _ _ _ _ _ Hp Hw) as [? | [? ?]];
              by auto. }
        split; [intros Hf | intros err' Hf]; apply Hcases in Hf.
        -- by destruct Hf as [? | [? _]].
        -- destruct Hf as [? | [[= <-] Hwhich]]; [done|].
           exists i, a. by repeat split.
Qed.

(** *** Every registered job is waiting or running *)

Lemma registered_at_work_runJob key args rest s :
  _queue s = (key, args) :: rest ->
  registered_at_work s ->
  registered_at_work (_runJob key args (set_queue rest s)).
Proof.
  intros Hq Hs k. unfold _runJob. simpl.
  destruct (_processing s !! key) as [job|] eqn:Hjob;
    unfold keys_at_work; simpl; intros Hk.
  - specialize (Hs k Hk). unfold keys_at_work in Hs. rewrite Hq in Hs.
    rewrite fmap_app. simpl in *. set_solver.
  - assert (k ≠ key) by (intros ->; rewrite Hjob in Hk; by destruct Hk).
    specialize (Hs k Hk). unfold keys_at_work in Hs. rewrite Hq in Hs.
    simpl in *. set_solver.
Qed.

Lemma registered_at_work_next_loop fuel s :
  registered_at_work s -> registered_at_work (_next_loop fuel s).
Proof.
  revert s. induction fuel as [|fuel IH]; intros s Hs; simpl; [done|].
  destruct (_queue s) as [|[key args] rest] eqn:Hq; [done|].
  destruct (num_lt _ _); [|done].
  by apply IH, registered_at_work_runJob.
Qed.

Lemma registered_at_work_next s :
  registered_at_work s -> registered_at_work (_next s).1.
Proof.
  intros Hs. destruct (_runPromise s) as [p|] eqn:Hrp.
  - pose proof (registered_at_work_next_loop (length (_queue s)) s Hs) as Hl.
    destruct (_next_active s p Hrp)
      as [[_ ->] | [(_ & _ & ->) | (_ & d & _ & ->)]]; [done | done |].
    intros k. simpl. rewrite lookup_empty. by intros [? ?].
  - by rewrite _next_inactive.
Qed.

Lemma registered_at_work_after_next s :
  registered_at_work s -> registered_at_work (after_next (_next s)).
Proof.
  intros Hs%registered_at_work_next. by destruct (_next s) as [s' [[]|x]].
Qed.

Lemma elem_of_delete_other {A} (l : list A) i x y :
  l !! i = Some x -> y ∈ l -> y ≠ x -> y ∈ delete i l.
Proof.
  intros Hi Hy Hne. apply delete_Permutation in Hi. rewrite Hi in Hy.
  by apply elem_of_cons in Hy as [-> | Hy].
Qed.

Lemma keys_after_delete s i a k :
  inflight s !! i = Some a -> k ∈ keys_at_work s -> k ≠ act_key a ->
  k ∈ (_queue s).*1 ++ (act_key <$> delete i (inflight s)).
Proof.
  intros Ha Hk Hne. unfold keys_at_work in Hk.
  apply elem_of_app in Hk as [Hk | Hk]; apply elem_of_app; [by left|].
  right. apply list_elem_of_fmap in Hk as (b & -> & Hb).
  apply list_elem_of_fmap_2. eapply elem_of_delete_other; [done..|].
  by intros ->.
Qed.

Lemma registered_at_work_step ev s :
  registered_at_work s -> registered_at_work (step ev s).
Proof.
  intros Hs. destruct ev as [key args| |i o]; simpl.
  - unfold add. destruct (_processing s !! key) eqn:Hjob; simpl; [done|].
    destruct (bool_decide _ && num_lt _ _); simpl.
    + unfold _runJob. simpl. rewrite lookup_insert_eq.
      intros k. unfold keys_at_work. simpl. rewrite fmap_app. simpl.
      intros [<- | Hk]%lookup_insert_is_Some'; [set_solver|].
      specialize (Hs k Hk). unfold keys_at_work in Hs. set_solver.
    + intros k. unfold keys_at_work. simpl. rewrite fmap_app. simpl.
      intros [<- | Hk]%lookup_insert_is_Some'; [set_solver|].
      specialize (Hs k Hk). unfold keys_at_work in Hs. set_solver.
  - unfold run. destruct (_runPromise s) as [p|] eqn:Hrp; [done|]. simpl.
    match goal with
    | |- context [_next ?s1] =>
        pose proof (registered_at_work_next s1 Hs) as Hn;
        destruct (_next s1) as [s2 [[]|x]]
    end; done.
  - destruct (inflight s !! i) as [a|] eqn:Ha; [|done].
    unfold _runJob_resume. destruct o as [|err]; simpl.
    + apply registered_at_work_after_next. intros k. simpl.
      intros [Hne Hk]%lookup_delete_is_Some.
      unfold keys_at_work. simpl. eapply keys_after_delete; eauto.
    + destruct (_retry s && negb _).
      * apply registered_at_work_after_next. intros k.
        unfold keys_at_work. simpl. rewrite fmap_app. simpl.
        intros [<- | Hk]%lookup_insert_is_Some'; [set_solver|].
        destruct (decide (k = act_key a)) as [-> | Hne]; [set_solver|].
        pose proof (keys_after_delete s i a k Ha (Hs k Hk) Hne). set_solver.
      * intros k. destruct (_deferred s); simpl; rewrite lookup_empty;
          by intros [? ?].
Qed.

Lemma reachable_registered_at_work s : reachable s -> registered_at_work s.
Proof.
  induction 1 as [options s Hnew | ev s _ IH].
  - apply constructor_fresh in Hnew as [-> _]. intros k. simpl.
    rewrite lookup_empty. by intros [? ?].
  - by apply registered_at_work_step.
Qed.

Lemma registered_jobs_are_at_work_aux s k :
  reachable s -> is_Some (_processing s !! k) ->
  (exists args, (k, args) ∈ _queue s) \/
  (exists a, a ∈ inflight s /\ act_key a = k).
Proof.
  intros Hs Hk.
  pose proof (reachable_registered_at_work s Hs k Hk) as Hraw.
  unfold keys_at_work in Hraw.
  apply elem_of_app in Hraw as [Hq | Hi].
  - left. apply list_elem_of_fmap in Hq as ([k' args] & -> & Hq). eauto.
  - right. apply list_elem_of_fmap in Hi as (a & -> & Hi). eauto.
Qed.

(** X5: in every reachable state each key of the registry is the key of
    an entry waiting in the queue or of a worker call in flight.  This is
    a statement about keys: the entry or the call may have been made for
    an earlier job under the same key. *)
Theorem registered_jobs_are_at_work s k :
  reachable s -> is_Some (_processing s !! k) ->
  (exists args, (k, args) ∈ _queue s) \/
  (exists a, a ∈ inflight s /\ act_key a = k).
Proof. apply registered_jobs_are_at_work_aux. Qed.

(** *** The cycle ends when the workers succeed *)

Lemma _next_maxConcurrent s : _maxConcurrent (_next s).1 = _maxConcurrent s.
Proof.
  destruct (_runPromise s) as [p|] eqn:Hrp.
  - destruct (_next_loop_same_cycle (length (_queue s)) s)
      as (_ & _ & _ & _ & _ & Hmax).
    destruct (_next_active s p Hrp)
      as [[_ ->] | [(_ & _ & ->) | (_ & d & _ & ->)]]; done.
  - by rewrite _next_inactive.
Qed.

Lemma step_maxConcurrent ev s : _maxConcurrent (step ev s) = _maxConcurrent s.
Proof.
  destruct ev as [key args| |i o]; simpl.
  - unfold add. destruct (_processing s !! key); simpl; [done|].
    destruct (bool_decide _ && num_lt _ _); simpl; [|done].
    unfold _runJob. simpl. by rewrite lookup_insert_eq.
  - unfold run. destruct (_runPromise s); simpl; [done|].
    match goal with
    | |- context [_next ?s1] =>
        pose proof (_next_maxConcurrent s1) as Hn;
        destruct (_next s1) as [s2 [[]|x]]
    end; done.
  - destruct (inflight s !! i) as [a|]; [|done].
    unfold _runJob_resume. destruct o as [|err]; simpl.
    + match goal with
      | |- context [_next ?s1] =>
          pose proof (_next_maxConcurrent s1) as Hn;
          destruct (_next s1) as [s2 [[]|x]]
      end; done.
    + destruct (_retry s && negb _).
      * match goal with
        | |- context [_next ?s1] =>
            pose proof (_next_maxConcurrent s1) as Hn;
            destruct (_next s1) as [s2 [[]|x]]
        end; done.
      * by destruct (_deferred s).
Qed.

Lemma reachable_positive_limit s :
  reachable s -> num_lt 0 (_maxConcurrent s) = true.
Proof.
  induction 1 as [options s Hnew | ev s _ IH].
  - by apply constructor_fresh in Hnew as [_ ?].
  - by rewrite step_maxConcurrent.
Qed.

Lemma work_next_loop fuel s : (work (_next_loop fuel s) <= work s)%nat.
Proof.
  revert s. induction fuel as [|fuel IH]; intros s; simpl; [done|].
  destruct (_queue s) as [|[key args] rest] eqn:Hq; [done|].
  destruct (num_lt _ _); [|done].
  etrans; [apply IH|]. unfold work, _runJob. rewrite Hq.
  destruct (_processing _ !! key); simpl; rewrite ?length_app; simpl; lia.
Qed.

Lemma work_after_next s : (work (after_next (_next s)) <= work s)%nat.
Proof.
  destruct (_runPromise s) as [p|] eqn:Hrp.
  - pose proof (work_next_loop (length (_queue s)) s) as Hl.
    destruct (_next_active s p Hrp)
      as [[_ ->] | [(_ & _ & ->) | (_ & d & _ & ->)]]; done.
  - by rewrite _next_inactive.
Qed.

Lemma work_resolved s i a :
  inflight s !! i = Some a ->
  (work (step (Settle i Resolves) s) < work s)%nat.
Proof.
  intros Ha. simpl. rewrite Ha. unfold _runJob_resume.
  eapply Nat.le_lt_trans; [apply work_after_next|].
  unfold work. simpl. rewrite length_delete by eauto.
  apply lookup_lt_Some in Ha. lia.
Qed.

(** A cycle cannot be active with nothing in flight. *)
Lemma active_cycle_has_running_job s :
  reachable s -> is_Some (_runPromise s) -> exists a, inflight s !! 0%nat = Some a.
Proof.
  intros Hs Hact. destruct (inflight s) as [|a rest] eqn:Hfl; [|by eexists].
  exfalso.
  pose proof (reachable_inv s Hs) as [[Hc _ _ _ _ _] Hlive _].
  rewrite Hfl in Hc. simpl in Hc.
  destruct (reachable_saturated s Hs Hact) as [Hq | Hfull].
  - apply (Hlive Hact). apply map_empty. intros k.
    destruct (_processing s !! k) as [j|] eqn:Hk; [|done].
    destruct (registered_jobs_are_at_work_aux s k Hs) as [[args Hin] | [b [Hin _]]];
      [by eexists | by rewrite Hq in Hin; apply elem_of_nil in Hin
      | by rewrite Hfl in Hin; apply elem_of_nil in Hin].
  - pose proof (reachable_positive_limit s Hs) as Hpos.
    change (Z.of_nat 0) with 0 in Hc. rewrite Hc in Hfull. congruence.
Qed.

Lemma cycle_end_fulfilled s i a h :
  reachable s -> _runPromise s = Some h -> inflight s !! i = Some a ->
  _runPromise (step (Settle i Resolves) s) = None ->
  heap (step (Settle i Resolves) s) !! h = Some Fulfilled.
Proof.
  intros Hs Hrp Ha. simpl. rewrite Ha. unfold _runJob_resume.
  pose proof (reachable_inv s Hs) as [[_ _ Hcy Hp _ Hi] _ _].
  assert (Hne : job_deferred (act_job a) ≠ h).
  { intros Heq. apply (proj2 (Hi a (list_elem_of_lookup_2 _ _ _ Ha))).
    by rewrite Hrp, Heq. }
  match goal with
  | |- context [_next ?s3] =>
      destruct (_next_loop_same_cycle (length (_queue s3)) s3)
        as (_ & Hheap & Hrun & _);
      destruct (_next_active s3 h Hrp)
        as [[_ ->] | [(_ & Hd & _) | (_ & d & Hd & ->)]]
  end; simpl in *.
  - congruence.
  - congruence.
  - intros _. rewrite Hheap. rewrite Hcy, Hrp in Hd. injection Hd as <-.
    unfold resolve. apply lookup_settle_pending.
    rewrite lookup_settle_ne by done. by apply Hp.
Qed.

Lemma cycle_progress_aux idxs s h :
  reachable s -> _runPromise s = Some h -> resolvable idxs s = true ->
  heap (exec (resolutions idxs) s) !! h = Some Fulfilled \/
  (_runPromise (exec (resolutions idxs) s) = Some h /\
   inflight (exec (resolutions idxs) s) <> [] /\
   (length idxs + work (exec (resolutions idxs) s) <= work s)%nat).
Proof.
  revert s. induction idxs as [|i idxs IH]; intros s Hs Hrp Hok.
  - right. simpl. split; [done|]. split; [|lia].
    destruct (active_cycle_has_running_job s Hs) as [a Ha]; [by eexists|].
    intros Hnil. by rewrite Hnil in Ha.
  - cbn [resolvable] in Hok. apply andb_true_iff in Hok as [Hi Hok].
    apply bool_decide_eq_true in Hi as [a Ha].
    pose proof (work_resolved s i a Ha) as Hless.
    change (exec (resolutions (i :: idxs)) s)
      with (exec (resolutions idxs) (step (Settle i Resolves) s)).
    destruct (step_runPromise (Settle i Resolves) s h Hrp) as [Hstill | Hend].
    + destruct (IH (step (Settle i Resolves) s)) as [Hful | (Hact & Hfl & Hw)];
        [by apply reachable_step | done | done | by left |].
      right. split; [done|]. split; [done|]. cbn [length]. lia.
    + left. apply (exec_heap_mono (resolutions idxs)); [|done].
      by apply (cycle_end_fulfilled s i a h).
Qed.

(** X6: from a reachable state with an active cycle, let worker calls in
    flight resolve one per turn, in any order.  After any such sequence
    of settlements the handle of the cycle is fulfilled, or else the
    cycle is still active with a call in flight, and the number of
    entries waiting or in flight has gone down by at least the number of
    settlements.  So the handle is fulfilled after at most as many
    settlements as there were entries waiting or in flight, whatever the
    order. *)
Theorem cycle_completes_when_workers_succeed s h idxs :
  reachable s -> _runPromise s = Some h -> resolvable idxs s = true ->
  (heap (exec (resolutions idxs) s) !! h = Some Fulfilled \/
   (_runPromise (exec (resolutions idxs) s) = Some h /\
    inflight (exec (resolutions idxs) s) <> [] /\
    (length idxs + work (exec (resolutions idxs) s) <= work s)%nat)) /\
  ((work s <= length idxs)%nat ->
   heap (exec (resolutions idxs) s) !! h = Some Fulfilled).
Proof.
  intros Hs Hrp Hok.
  pose proof (cycle_progress_aux idxs s h Hs Hrp Hok) as Hprog.
  split; [done|]. intros Hlen.
  destruct Hprog as [Hful | (_ & Hfl & Hw)]; [done|]. exfalso.
  unfold work in Hw at 1.
  destruct (inflight (exec (resolutions idxs) s)); [done|]. simpl in Hw. lia.
Qed.

(** *** Without terminal failure *)

Lemma reachable_clean_reachable s : reachable_clean s -> reachable s.
Proof.
  induction 1 as [options s Hnew | ev s _ IH _].
  - by eapply reachable_new.
  - by apply reachable_step.
Qed.

Lemma keys_move_to_back (l1 l2 : list TFirstArg) k :
  l1 ++ l2 ++ [k] ≡ₚ k :: l1 ++ l2.
Proof. by rewrite app_assoc, <- Permutation_cons_append. Qed.

Lemma keys_push_queue (q : list (TFirstArg * TRestArgs)) (l2 : list TFirstArg)
    k args :
  (q ++ [(k, args)]).*1 ++ l2 ≡ₚ k :: q.*1 ++ l2.
Proof.
  rewrite fmap_app. simpl. rewrite <- app_assoc. simpl.
  by rewrite <- Permutation_middle.
Qed.

Lemma keys_delete_inflight s i a :
  inflight s !! i = Some a ->
  keys_at_work s ≡ₚ
    act_key a :: (_queue s).*1 ++ (act_key <$> delete i (inflight s)).
Proof.
  intros Ha. unfold keys_at_work.
  rewrite (delete_Permutation _ _ _ Ha) at 1. rewrite fmap_cons.
  by rewrite <- Permutation_middle.
Qed.

Lemma clean_inv_runJob key args rest s :
  _queue s = (key, args) :: rest ->
  clean_inv s -> clean_inv (_runJob key args (set_queue rest s)).
Proof.
  intros Hq [Hnd Hreg Hjob Hun].
  assert (Hkeys : keys_at_work s = key :: rest.*1 ++ (act_key <$> inflight s)).
  { unfold keys_at_work. by rewrite Hq. }
  destruct (Hreg key) as [job Hkey]; [rewrite Hkeys; by left|].
  unfold _runJob. simpl. rewrite Hkey.
  assert (Hperm : keys_at_work
                    (set_inflight
                       (inflight s ++
                        [{| act_key := key; act_args := args; act_job := job |}])
                       (set_calls (calls s ++ [(key, args)])
                          (set_numRunning (_numRunning s + 1)
                             (set_queue rest s)))) ≡ₚ keys_at_work s).
  { unfold keys_at_work at 1. simpl. rewrite fmap_app, Hkeys. simpl.
    apply keys_move_to_back. }
  constructor; simpl.
  - by rewrite Hperm.
  - intros k Hk. apply Hreg. by rewrite <- Hperm.
  - intros a [Ha | ->%list_elem_of_singleton]%elem_of_app; [by apply Hjob|].
    done.
  - done.
Qed.

Lemma clean_inv_next_loop fuel s :
  clean_inv s -> clean_inv (_next_loop fuel s).
Proof.
  revert s. induction fuel as [|fuel IH]; intros s Hs; simpl; [done|].
  destruct (_queue s) as [|[key args] rest] eqn:Hq; [done|].
  destruct (num_lt _ _); [|done].
  by apply IH, clean_inv_runJob.
Qed.

Lemma clean_inv_next s :
  _deferred s = _runPromise s -> clean_inv s -> clean_inv (_next s).1.
Proof.
  intros Hcy Hs. destruct (_runPromise s) as [p|] eqn:Hrp.
  - pose proof (clean_inv_next_loop (length (_queue s)) s Hs) as Hl.
    destruct (_next_loop_same_cycle (length (_queue s)) s) as (Hreg & _).
    destruct (_next_active s p Hrp)
      as [[_ ->] | [(_ & Hd & _) | (Hemp & d & _ & ->)]];
      [done | congruence |].
    destruct Hl as [Hnd Hregd Hjob Hun]. rewrite Hreg, Hemp in Hregd, Hjob.
    by constructor.
  - by rewrite _next_inactive.
Qed.

Lemma clean_inv_after_next s :
  _deferred s = _runPromise s -> clean_inv s ->
  clean_inv (after_next (_next s)).
Proof.
  intros Hcy Hs. rewrite after_next_no_throw by done.
  by apply clean_inv_next.
Qed.

Lemma clean_inv_step ev s :
  _deferred s = _runPromise s -> clean_inv s -> terminal ev s = false ->
  clean_inv (step ev s).
Proof.
  intros Hcy Hs Hterm. pose proof Hs as [Hnd Hreg Hjob Hun].
  destruct ev as [key args| |i o]; simpl.
  - unfold add. destruct (_processing s !! key) as [j|] eqn:Hkey; simpl;
      [done|].
    assert (Hfresh : key ∉ keys_at_work s).
    { intros [j Hj]%Hreg. congruence. }
    assert (Hother : forall a, a ∈ inflight s -> act_key a ≠ key).
    { intros a Ha <-. apply Hfresh. unfold keys_at_work.
      apply elem_of_app. right. by apply list_elem_of_fmap_2. }
    destruct (bool_decide _ && num_lt _ _); simpl.
    + unfold _runJob. simpl. rewrite lookup_insert_eq.
      assert (Hperm : forall act : activation,
                 act_key act = key ->
                 (_queue s).*1 ++ (act_key <$> inflight s ++ [act]) ≡ₚ
                 key :: keys_at_work s).
      { intros act <-. rewrite fmap_app. apply keys_move_to_back. }
      constructor; unfold keys_at_work; simpl.
      * rewrite Hperm by done. by apply NoDup_cons.
      * intros k. rewrite Hperm by done.
        intros [-> | Hk]%elem_of_cons; apply lookup_insert_is_Some'; auto.
      * intros a [Ha | ->%list_elem_of_singleton]%elem_of_app; simpl.
        -- rewrite lookup_insert_ne by (symmetry; by apply Hother).
           by apply Hjob.
        -- by rewrite lookup_insert_eq.
      * done.
    + constructor; unfold keys_at_work; simpl.
      * rewrite keys_push_queue. by apply NoDup_cons.
      * intros k. rewrite keys_push_queue.
        intros [-> | Hk]%elem_of_cons; apply lookup_insert_is_Some'; auto.
      * intros a Ha. rewrite lookup_insert_ne by (symmetry; by apply Hother).
        by apply Hjob.
      * done.
  - unfold run. destruct (_runPromise s) as [p|] eqn:Hrp; [done|]. simpl.
    match goal with
    | |- context [_next ?s1] =>
        assert (Hn : clean_inv (_next s1).1)
          by (apply clean_inv_next; [done | by constructor]);
        destruct (_next s1) as [s2 [[]|x]]
    end; done.
  - destruct (inflight s !! i) as [a|] eqn:Ha; [|done].
    pose proof (keys_delete_inflight s i a Ha) as Hperm.
    assert (Hnd' : NoDup (act_key a ::
                     (_queue s).*1 ++ (act_key <$> delete i (inflight s))))
      by (by rewrite <- Hperm).
    apply NoDup_cons in Hnd' as [Hnotin Hnd'].
    assert (Hrest : forall k,
               k ∈ (_queue s).*1 ++ (act_key <$> delete i (inflight s)) ->
               k ≠ act_key a /\ is_Some (_processing s !! k)).
    { intros k Hk. split; [by intros ->|]. apply Hreg. rewrite Hperm.
      by right. }
    assert (Hrestjob : forall b,
               b ∈ delete i (inflight s) ->
               act_key b ≠ act_key a /\
               _processing s !! act_key b = Some (act_job b)).
    { intros b Hb. split.
      - apply Hrest, elem_of_app. right. by apply list_elem_of_fmap_2.
      - eapply Hjob, list_elem_of_delete_inv, Hb. }
    unfold _runJob_resume. destruct o as [|err]; simpl.
    + apply clean_inv_after_next; [done|].
      constructor; unfold keys_at_work; simpl; try done.
      * intros k [Hne Hk]%Hrest. by apply lookup_delete_is_Some.
      * intros b [Hne Hb]%Hrestjob. by rewrite lookup_delete_ne.
    + simpl in Hterm. rewrite Ha in Hterm.
      apply negb_false_iff in Hterm. rewrite Hterm.
      apply clean_inv_after_next; [done|].
      constructor; unfold keys_at_work; simpl; try done.
      * rewrite keys_push_queue. by apply NoDup_cons.
      * intros k. rewrite keys_push_queue.
        intros [-> | [_ Hk]%Hrest]%elem_of_cons;
          apply lookup_insert_is_Some'; auto.
      * intros b [Hne Hb]%Hrestjob. by rewrite lookup_insert_ne.
Qed.

Lemma reachable_clean_inv s : reachable_clean s -> clean_inv s.
Proof.
  induction 1 as [options s Hnew | ev s Hs IH Hterm].
  - apply constructor_fresh in Hnew as [-> _].
    constructor; unfold keys_at_work; simpl; try done.
    + constructor.
    + by intros k ?%elem_of_nil.
    + by intros a ?%elem_of_nil.
  - apply clean_inv_step; [|done..].
    apply reachable_clean_reachable, reachable_inv in Hs. apply Hs.
Qed.

(** X7: as long as no worker failure has been terminal, every entry of the
    queue has a job in the registry, every worker call in flight is for
    the job the registry holds under its key, no key is waiting or running
    twice, and [nullthrows] has never thrown. *)
Theorem pending_entries_registered_without_failure s :
  reachable_clean s ->
  (forall k args, (k, args) ∈ _queue s -> is_Some (_processing s !! k)) /\
  (forall a, a ∈ inflight s -> _processing s !! act_key a = Some (act_job a)) /\
  NoDup ((_queue s).*1 ++ (act_key <$> inflight s)) /\
  unhandled s = [].
Proof.
  intros [Hnd Hreg Hjob Hun]%reachable_clean_inv. repeat split; try done.
  intros k args Hin. apply Hreg. unfold keys_at_work. apply elem_of_app. left.
  by apply (list_elem_of_fmap_2 fst _ (k, args)).
Qed.

Lemma cycle_end_registry s ev :
  is_Some (_runPromise s) -> _runPromise (step ev s) = None ->
  _processing (step ev s) = ∅.
Proof.
  intros [p Hrp]. destruct ev as [key args| |i o]; simpl.
  - rewrite add_runPromise. congruence.
  - rewrite (run_active s p Hrp). simpl. congruence.
  - destruct (inflight s !! i) as [a|] eqn:Ha; [|congruence].
    unfold _runJob_resume. destruct o as [|err]; simpl.
    + intros Hend.
      match type of Hend with
      | context [_next ?s3] =>
          by destruct (after_next_ends_cycle s3 p Hrp Hend) as (_ & Hreg & _)
      end.
    + destruct (_retry s && negb (job_retried (act_job a))).
      * intros Hend.
        match type of Hend with
        | context [_next ?s3] =>
            destruct (after_next_ends_cycle s3 p Hrp Hend) as (Hreg & _)
        end. simpl in Hreg. by apply insert_non_empty in Hreg.
      * intros _. by destruct (_deferred s).
Qed.

(** X8: when a cycle ends in a history without terminal failure, all of
    the cycle state is clear: nothing waits, nothing is in flight, the
    registry is empty, the running count is 0, the cycle handle is absent
    from the queue and is fulfilled. *)
Theorem cycle_end_without_failure_clears_all s ev h :
  reachable_clean s -> terminal ev s = false ->
  _runPromise s = Some h -> _runPromise (step ev s) = None ->
  _queue (step ev s) = [] /\ inflight (step ev s) = [] /\
  _processing (step ev s) = ∅ /\ _numRunning (step ev s) = 0 /\
  _deferred (step ev s) = None /\
  heap (step ev s) !! h = Some Fulfilled.
Proof.
  intros Hs Hterm Hrp Hend.
  pose proof (reachable_clean_inv _ (clean_step ev s Hs Hterm))
    as [_ Hreg _ _].
  pose proof (reachable_clean_reachable s Hs) as Hreach.
  pose proof (reachable_inv _ (reachable_step ev s Hreach))
    as [[Hc _ Hcy _ _ _] _ _].
  pose proof (cycle_end_registry s ev ltac:(by eexists) Hend) as Hemp.
  assert (Hkeys : keys_at_work (step ev s) = []).
  { destruct (keys_at_work (step ev s)) as [|k ks] eqn:Hk; [done|].
    destruct (Hreg k) as [j Hj]; [by left|].
    by rewrite Hemp, lookup_empty in Hj. }
  unfold keys_at_work in Hkeys. apply app_eq_nil in Hkeys as [Hq Hfl].
  apply fmap_nil_inv in Hq. apply fmap_nil_inv in Hfl.
  split; [done|]. split; [done|]. split; [done|].
  split; [by rewrite Hc, Hfl|]. split; [by rewrite Hcy|].
  destruct ev as [key args| |i o].
  - simpl in Hend. rewrite add_runPromise in Hend. congruence.
  - simpl in Hend. rewrite (run_active s h Hrp) in Hend. simpl in Hend.
    congruence.
  - destruct (inflight s !! i) as [a|] eqn:Ha.
    2: { simpl in Hend. rewrite Ha in Hend. congruence. }
    destruct o as [|err]; [by apply (cycle_end_fulfilled s i a h)|].
    simpl in Hterm. rewrite Ha in Hterm.
    apply negb_false_iff, andb_true_iff in Hterm as [Hretry Hfirst].
    apply negb_true_iff in Hfirst.
    pose proof (retry_registry s i a err Ha Hretry Hfirst) as Hthere.
    by rewrite Hemp, lookup_empty in Hthere.
Qed.

Lemma add_starts_or_queues_aux s key args :
  _processing s !! key = None ->
  (add key args s).2 = length (heap s) /\
  _processing (add key args s).1 =
    <[key := {| job_deferred := length (heap s);
                job_promise := length (heap s);
                job_retried := false |}]> (_processing s).
Proof.
  intros Hnew. unfold add. rewrite Hnew. simpl. split; [done|].
  destruct (bool_decide _ && num_lt _ _); simpl; [|done].
  unfold _runJob. simpl. by rewrite lookup_insert_eq.
Qed.

(** *** The worker is called with what was added *)

Lemma all_entries_next_loop P fuel s :
  all_entries P s -> all_entries P (_next_loop fuel s).
Proof.
  revert s. induction fuel as [|fuel IH]; intros s Hs; simpl; [done|].
  destruct (_queue s) as [|[key args] rest] eqn:Hq; [done|].
  destruct (num_lt _ _); [|done].
  apply IH. destruct Hs as (Hqs & Hcs & Hfs). rewrite Hq in Hqs.
  apply Forall_cons in Hqs as [Hhead Hrest].
  unfold _runJob, all_entries. destruct (_processing _ !! key); simpl.
  - repeat split; [done | |]; apply Forall_app; split; try done;
      by repeat constructor.
  - done.
Qed.

Lemma all_entries_next P s : all_entries P s -> all_entries P (_next s).1.
Proof.
  intros Hs. destruct (_runPromise s) as [p|] eqn:Hrp.
  - pose proof (all_entries_next_loop P (length (_queue s)) s Hs) as Hl.
    destruct (_next_active s p Hrp)
      as [[_ ->] | [(_ & _ & ->) | (_ & d & _ & ->)]]; done.
  - by rewrite _next_inactive.
Qed.

Lemma all_entries_after_next P s :
  all_entries P s -> all_entries P (after_next (_next s)).
Proof.
  intros Hs%(all_entries_next P). by destruct (_next s) as [s' [[]|x]].
Qed.

Lemma all_entries_step P ev s :
  all_entries P s -> (forall key args, ev = Add key args -> P (key, args)) ->
  all_entries P (step ev s).
Proof.
  intros Hs Hev. pose proof Hs as (Hqs & Hcs & Hfs).
  destruct ev as [key args| |i o]; simpl.
  - unfold add. destruct (_processing s !! key); simpl; [done|].
    specialize (Hev key args eq_refl).
    destruct (bool_decide _ && num_lt _ _); simpl.
    + unfold _runJob, all_entries. simpl. rewrite lookup_insert_eq. simpl.
      repeat split; [done | |]; apply Forall_app; split; try done;
        by repeat constructor.
    + unfold all_entries. simpl. repeat split; [|done..].
      apply Forall_app. split; [done|]. by repeat constructor.
  - unfold run. destruct (_runPromise s); simpl; [done|].
    match goal with
    | |- context [_next ?s1] =>
        pose proof (all_entries_next P s1 Hs) as Hn;
        destruct (_next s1) as [s2 [[]|x]]
    end; done.
  - destruct (inflight s !! i) as [a|] eqn:Ha; [|done].
    assert (Ha' : P (act_key a, act_args a)).
    { eapply (proj1 (Forall_forall _ _) Hfs), list_elem_of_lookup_2, Ha. }
    assert (Hfs' : Forall (fun a => P (act_key a, act_args a))
                     (delete i (inflight s))).
    { apply Forall_forall. intros b Hb%list_elem_of_delete_inv.
      by apply (proj1 (Forall_forall _ _) Hfs). }
    unfold _runJob_resume. destruct o as [|err]; simpl.
    + by apply all_entries_after_next.
    + destruct (_retry s && negb _).
      * apply all_entries_after_next. unfold all_entries. simpl.
        repeat split; [|done..]. apply Forall_app. split; [done|].
        by repeat constructor.
      * by destruct (_deferred s).
Qed.

Lemma all_entries_exec P evs s :
  all_entries P s ->
  (forall key args, Add key args ∈ evs -> P (key, args)) ->
  all_entries P (exec evs s).
Proof.
  revert s. induction evs as [|ev evs IH]; intros s Hs Hevs; simpl; [done|].
  apply IH.
  - apply all_entries_step; [done|]. intros key args ->. apply Hevs. by left.
  - intros key args Hin. apply Hevs. by right.
Qed.

(** X9: whatever the events after construction, each call of the worker
    is for a key and arguments that some [add] was called with. *)
Theorem worker_called_with_added_entries options s0 evs key args :
  constructor options = Normal s0 ->
  (key, args) ∈ calls (exec evs s0) -> Add key args ∈ evs.
Proof.
  intros Hnew Hcall. apply constructor_fresh in Hnew as [Hs0 _].
  destruct (all_entries_exec (fun c => Add c.1 c.2 ∈ evs) evs s0)
    as (_ & Hcs & _).
  - rewrite Hs0. by repeat split.
  - done.
  - by apply (proj1 (Forall_forall _ _) Hcs (key, args)).
Qed.

Lemma all_entries_impl (P Q : TFirstArg * TRestArgs -> Prop) s :
  (forall c, P c -> Q c) -> all_entries P s -> all_entries Q s.
Proof.
  intros HPQ (Hq & Hc & Hf).
  repeat split; (eapply Forall_impl; [eassumption|]); simpl; eauto.
Qed.

Lemma run_registry_live s :
  _processing s ≠ ∅ -> _processing (run s).1 = _processing s.
Proof.
  intros Hne. unfold run. destruct (_runPromise s); [done|]. simpl.
  match goal with
  | |- context [_next ?s1] =>
      destruct (_next_loop_same_cycle (length (_queue s1)) s1) as (Hreg & _);
      destruct (_next_live s1 Hne) as [-> | ->]
  end; done.
Qed.

(** *** The promise of a job *)

Lemma handles_pending_next s :
  handles_pending s -> handles_pending (_next s).1.
Proof.
  intros Hs. destruct (_runPromise s) as [p|] eqn:Hrp.
  - destruct (_next_loop_same_cycle (length (_queue s)) s)
      as (Hreg & Hheap & _).
    assert (Hl : handles_pending (_next_loop (length (_queue s)) s)).
    { unfold handles_pending. by rewrite Hreg, Hheap. }
    destruct (_next_active s p Hrp)
      as [[_ ->] | [(_ & _ & ->) | (_ & d & _ & ->)]]; [done | done |].
    split; simpl; intros ?; intros; by rewrite lookup_empty in *.
  - by rewrite _next_inactive.
Qed.

Lemma handles_pending_after_next s :
  handles_pending s -> handles_pending (after_next (_next s)).
Proof.
  intros Hs%handles_pending_next. by destruct (_next s) as [s' [[]|x]].
Qed.

Lemma handles_pending_alloc s :
  handles_pending s ->
  handles_pending (set_heap (heap s ++ [Pending]) s).
Proof.
  intros [Hp Hd]. split; simpl; [|done].
  intros k j [Hj ?]%Hp. split; [by apply lookup_app_l_Some | done].
Qed.

Lemma handles_pending_step ev s :
  clean_inv s -> handles_pending s -> terminal ev s = false ->
  handles_pending (step ev s).
Proof.
  intros [_ _ Hjob _] Hs Hterm. pose proof Hs as [Hp Hd].
  destruct ev as [key args| |i o]; simpl.
  - unfold add. destruct (_processing s !! key) as [j|] eqn:Hkey; simpl;
      [done|].
    assert (Hnew : handles_pending
              (set_processing
                 (<[key := {| job_deferred := length (heap s);
                              job_promise := length (heap s);
                              job_retried := false |}]> (_processing s))
                 (set_heap (heap s ++ [Pending]) s))).
    { split; simpl.
      - intros k j. rewrite lookup_insert. case_decide.
        + intros [= <-]. simpl. split; [by apply list_lookup_middle | done].
        + intros [Hj ?]%Hp. split; [by apply lookup_app_l_Some | done].
      - intros k1 k2 j1 j2. rewrite !lookup_insert.
        repeat case_decide; subst; try done.
        + intros [= <-] [Hj _]%Hp. simpl. intros Heq.
          apply lookup_lt_Some in Hj. lia.
        + intros [Hj _]%Hp [= <-]. simpl. intros Heq.
          apply lookup_lt_Some in Hj. lia.
        + apply Hd. }
    destruct (bool_decide _ && num_lt _ _); simpl; [|done].
    unfold _runJob. simpl. by rewrite lookup_insert_eq.
  - unfold run. destruct (_runPromise s) as [p|] eqn:Hrp; [done|]. simpl.
    match goal with
    | |- context [_next ?s1] =>
        assert (Hn : handles_pending (_next s1).1)
          by (apply handles_pending_next;
              by apply (handles_pending_alloc s));
        destruct (_next s1) as [s2 [[]|x]]
    end; done.
  - destruct (inflight s !! i) as [a|] eqn:Ha; [|done].
    pose proof (Hjob a (list_elem_of_lookup_2 _ _ _ Ha)) as Hreg.
    unfold _runJob_resume. destruct o as [|err]; simpl.
    + apply handles_pending_after_next. split; simpl.
      * intros k j [Hne Hj]%lookup_delete_Some.
        destruct (Hp k j Hj) as [Hpend ?]. split; [|done].
        unfold resolve. rewrite lookup_settle_ne; [done|].
        intros Heq. apply Hne. by apply (Hd _ _ _ _ Hreg Hj).
      * intros k1 k2 j1 j2 [_ H1]%lookup_delete_Some [_ H2]%lookup_delete_Some.
        by apply Hd.
    + simpl in Hterm. rewrite Ha in Hterm. apply negb_false_iff in Hterm.
      rewrite Hterm. apply handles_pending_after_next.
      destruct (Hp _ _ Hreg) as [Hpend Hsame].
      split; simpl.
      * intros k j. rewrite lookup_insert. case_decide; [|by apply Hp].
        by intros [= <-].
      * intros k1 k2 j1 j2. rewrite !lookup_insert.
        repeat case_decide; subst; try done.
        -- intros [= <-] Hj. simpl. intros Heq. by apply (Hd _ _ _ _ Hreg Hj).
        -- intros Hj [= <-]. simpl. intros Heq.
           symmetry. apply (Hd _ _ _ _ Hreg Hj). by symmetry.
        -- apply Hd.
Qed.

Lemma reachable_handles_pending s : reachable_clean s -> handles_pending s.
Proof.
  induction 1 as [options s Hnew | ev s Hs IH Hterm].
  - apply constructor_fresh in Hnew as [-> _].
    split; simpl; intros ?; intros; by rewrite lookup_empty in *.
  - apply handles_pending_step; [|done..]. by apply reachable_clean_inv.
Qed.

Lemma after_next_registry s k :
  _processing s !! k = None -> _processing (after_next (_next s)) !! k = None.
Proof.
  intros Hk. destruct (_runPromise s) as [p|] eqn:Hrp.
  - destruct (_next_loop_same_cycle (length (_queue s)) s) as (Hreg & _).
    destruct (_next_active s p Hrp)
      as [[_ ->] | [(_ & _ & ->) | (_ & d & _ & ->)]]; simpl;
      by rewrite ?Hreg.
  - by rewrite _next_inactive.
Qed.

(** X15: as long as no worker failure has been terminal, the promise
    [add] returned for a job is pending for as long as the job is
    registered; and when the worker of a call in flight resolves, the
    promise of its job is fulfilled and the job leaves the registry. *)
Theorem job_promise_fulfilled_when_processed s :
  reachable_clean s ->
  (forall k j, _processing s !! k = Some j ->
               heap s !! job_promise j = Some Pending) /\
  (forall i a, inflight s !! i = Some a ->
     heap s !! job_promise (act_job a) = Some Pending /\
     heap (step (Settle i Resolves) s) !! job_promise (act_job a) =
       Some Fulfilled /\
     _processing (step (Settle i Resolves) s) !! act_key a = None).
Proof.
  intros Hs. pose proof (reachable_handles_pending s Hs) as [Hp _].
  pose proof (reachable_clean_inv s Hs) as [_ _ Hjob _].
  assert (Hreg : forall k j, _processing s !! k = Some j ->
                             heap s !! job_promise j = Some Pending).
  { intros k j [Hpend ->]%Hp. done. }
  split; [done|]. intros i a Ha.
  pose proof (Hjob a (list_elem_of_lookup_2 _ _ _ Ha)) as Hin.
  destruct (Hp _ _ Hin) as [Hpend Hsame].
  split; [by rewrite Hsame|]. simpl. rewrite Ha. unfold _runJob_resume.
  split.
  - eapply after_next_heap_mono; [|done]. simpl. rewrite Hsame.
    by apply lookup_settle_pending.
  - apply after_next_registry. simpl. by rewrite lookup_delete_eq.
Qed.

(** X16: when a worker fails for a job not yet retried and retry is on,
    the job stays registered under its key with the same promise and with
    [retried] set, its promise is not settled (the store of promises is
    unchanged), and its entry is appended behind all entries then waiting,
    the step taking entries from the front of the queue only. *)
Theorem first_failure_requeues_job s i a err :
  inflight s !! i = Some a -> _retry s = true ->
  job_retried (act_job a) = false ->
  let s' := step (Settle i (Rejects err)) s in
  _processing s' !! act_key a =
    Some {| job_deferred := job_deferred (act_job a);
            job_promise := job_promise (act_job a);
            job_retried := true |} /\
  heap s' = heap s /\
  (exists admitted,
      _queue s ++ [(act_key a, act_args a)] = admitted ++ _queue s') /\
  terminal (Settle i (Rejects err)) s = false.
Proof.
  intros Ha Hretry Hfirst s'.
  destruct (retry_requeues s i a err Ha Hretry Hfirst) as (_ & Hheap & Hq).
  split; [by apply retry_registry|]. split; [done|]. split; [done|].
  simpl. by rewrite Ha, Hretry, Hfirst.
Qed.

(** *** The handle of a job without terminal failure *)

Lemma after_next_registry_cases s :
  _processing (after_next (_next s)) = _processing s \/
  _processing (after_next (_next s)) = ∅.
Proof.
  destruct (_runPromise s) as [p|] eqn:Hrp.
  - destruct (_next_loop_same_cycle (length (_queue s)) s) as (Hreg & _).
    destruct (_next_active s p Hrp)
      as [[_ ->] | [(_ & _ & ->) | (_ & d & _ & ->)]]; simpl; auto.
  - rewrite _next_inactive by done. by left.
Qed.

Lemma step_keeps_job_handle s ev k j j' :
  clean_inv s -> terminal ev s = false ->
  _processing s !! k = Some j -> _processing (step ev s) !! k = Some j' ->
  job_promise j' = job_promise j.
Proof.
  intros [_ _ Hjob _] Hterm Hk. destruct ev as [key args| |i o]; simpl.
  - unfold add. destruct (_processing s !! key) as [j0|] eqn:Hkey; simpl.
    { intros Hk'. congruence. }
    assert (Hne : key <> k) by congruence.
    destruct (bool_decide _ && num_lt _ _).
    + match goal with
      | |- context [_runJob ?k0 ?a0 ?s1] =>
          destruct (_runJob_same_cycle k0 a0 s1) as (-> & _)
      end. simpl. rewrite lookup_insert_ne by done. congruence.
    + simpl. rewrite lookup_insert_ne by done. congruence.
  - unfold run. destruct (_runPromise s) as [p|]; simpl; [congruence|].
    match goal with
    | |- context [_next ?s1] =>
        destruct (after_next_registry_cases s1) as [Hreg | Hreg];
        destruct (_next s1) as [s2 [[]|x]]
    end; simpl in *; rewrite Hreg; rewrite ?lookup_empty; congruence.
  - simpl in Hterm. destruct (inflight s !! i) as [a|] eqn:Ha; [|congruence].
    pose proof (Hjob a (list_elem_of_lookup_2 _ _ _ Ha)) as Hreg.
    unfold _runJob_resume. destruct o as [|err]; simpl.
    + match goal with
      | |- context [_next ?s1] =>
          destruct (after_next_registry_cases s1) as [-> | ->]
      end; simpl; [|by rewrite lookup_empty].
      intros [_ Hk']%lookup_delete_Some. congruence.
    + apply negb_false_iff in Hterm. rewrite Hterm.
      match goal with
      | |- context [_next ?s1] =>
          destruct (after_next_registry_cases s1) as [-> | ->]
      end; simpl; [|by rewrite lookup_empty].
      intros [[<- <-] | [_ Hk']]%lookup_insert_Some; simpl; congruence.
Qed.

Lemma exec_keeps_job_handle evs s k j :
  reachable_clean s -> no_terminal evs s = true ->
  _processing s !! k = Some j ->
  (forall n, is_Some (_processing (exec (take n evs) s) !! k)) ->
  exists j', _processing (exec evs s) !! k = Some j' /\
             job_promise j' = job_promise j.
Proof.
  revert s j. induction evs as [|ev evs IH]; intros s j Hs Hok Hk Hall.
  - by exists j.
  - cbn [no_terminal] in Hok. apply andb_true_iff in Hok as [Hterm Hok].
    apply negb_true_iff in Hterm.
    destruct (Hall 1%nat) as [j1 Hk1].
    change (exec (take 1 (ev :: evs)) s) with (step ev s) in Hk1.
    pose proof (step_keeps_job_handle s ev k j j1
                  (reachable_clean_inv s Hs) Hterm Hk Hk1) as Hsame.
    destruct (IH (step ev s) j1) as (j' & Hk' & Hj');
      [by apply clean_step | done | done | | ].
    + intros n. apply (Hall (S n)).
    + exists j'. split; [done | congruence].
Qed.

(** X17: in a queue that has seen no terminal failure, let [add] create
    the job of [key].  After any events among which none is a terminal
    failure, and throughout which [key] stays registered, [add] for
    [key] returns the handle that the creating [add] returned, and
    changes nothing: no worker call, no new job.  This covers the job
    waiting, running, and re-queued after a failed first attempt. *)
Theorem add_returns_creating_handle s key args args' evs :
  reachable_clean s -> _processing s !! key = None ->
  no_terminal evs (add key args s).1 = true ->
  (forall n,
      is_Some (_processing (exec (take n evs) (add key args s).1) !! key)) ->
  add key args' (exec evs (add key args s).1) =
    (exec evs (add key args s).1, (add key args s).2).
Proof.
  intros Hs Hnew Hok Hall.
  destruct (exec_keeps_job_handle evs (add key args s).1 key _
              (clean_step (Add key args) s Hs eq_refl) Hok
              (add_new_registry s key args Hnew) Hall)
    as (j' & Hk' & Hj').
  rewrite (add_existing _ _ _ _ Hk'). by rewrite Hj'.
Qed.

End SchedulerMore.

(** ** A worker that never throws before it returns a promise

    When every call of the worker returns a promise, the definitions with
    the synchronous [catch] path compute what the definitions without it
    compute, given fuel for the entries waiting. *)

Section SynchronousFacts.

Context {TFirstArg : Type} `{Countable TFirstArg}.
Context {TRestArgs TErr : Type}.

Abbreviation state := (state TFirstArg TRestArgs TErr).
Abbreviation event := (event TFirstArg TRestArgs TErr).
Abbreviation activation := (activation TFirstArg TRestArgs).

Implicit Types (s : state) (ev : event) (a : activation).
Implicit Types (key : TFirstArg) (args : TRestArgs).

Variable throws : nat -> option TErr.
Hypothesis no_throw : forall n, throws n = None.

Lemma _runJob_sync_returns fuel key args s :
  _runJob_sync throws fuel key args s = Some (_runJob key args s).
Proof.
  destruct fuel; simpl; unfold _runJob;
    destruct (_processing s !! key); by rewrite ?no_throw.
Qed.

Lemma _next_loop_length s :
  _next_loop (length (_queue s)) s =
    match _queue s with
    | [] => s
    | (key, args) :: rest =>
        if num_lt (_numRunning s) (_maxConcurrent s)
        then _next_loop (length rest) (_runJob key args (set_queue rest s))
        else s
    end.
Proof.
  destruct (_queue s) as [|[key args] rest] eqn:Hq; simpl; [done|].
  by rewrite Hq.
Qed.

Lemma _next_loop_sync_sound fuel s s1 :
  _next_loop_sync throws fuel s = Some s1 ->
  s1 = _next_loop (length (_queue s)) s.
Proof.
  revert s. induction fuel as [|fuel IH]; intros s;
    rewrite _next_loop_length; simpl;
    destruct (_queue s) as [|[key args] rest];
    try (by intros [= <-]);
    destruct (num_lt _ _); try done; try (by intros [= <-]).
  rewrite _runJob_sync_returns. intros Hl%IH.
  by rewrite _runJob_queue in Hl.
Qed.

Lemma _next_loop_sync_returns fuel s :
  (length (_queue s) <= fuel)%nat ->
  _next_loop_sync throws fuel s = Some (_next_loop (length (_queue s)) s).
Proof.
  revert s. induction fuel as [|fuel IH]; intros s;
    rewrite _next_loop_length; simpl;
    destruct (_queue s) as [|[key args] rest]; simpl;
    try done; try lia; intros Hlen.
  destruct (num_lt _ _); [|done].
  rewrite _runJob_sync_returns, IH; rewrite _runJob_queue; simpl; [done | lia].
Qed.

Lemma _next_sync_sound fuel s r :
  _next_sync throws fuel s = Some r -> r = _next s.
Proof.
  destruct fuel as [|fuel]; simpl; [done|]. unfold _next.
  destruct (_runPromise s); [|by intros [= <-]].
  destruct (_next_loop_sync throws fuel s) as [s1|] eqn:Hl; [|done].
  apply _next_loop_sync_sound in Hl as ->. by intros [= <-].
Qed.

Lemma _next_sync_returns fuel s :
  (length (_queue s) < fuel)%nat -> _next_sync throws fuel s = Some (_next s).
Proof.
  destruct fuel as [|fuel]; simpl; [lia|]. intros Hlen. unfold _next.
  destruct (_runPromise s); [|done].
  by rewrite _next_loop_sync_returns by lia.
Qed.

Lemma add_sync_returns fuel key args s :
  add_sync throws fuel key args s = Some (add key args s).
Proof.
  unfold add_sync, add. destruct (_processing s !! key); simpl; [done|].
  destruct (bool_decide _ && num_lt _ _); [|done].
  by rewrite _runJob_sync_returns.
Qed.

Lemma run_sync_sound fuel s r : run_sync throws fuel s = Some r -> r = run s.
Proof.
  unfold run_sync, run. destruct (_runPromise s); [by intros [= <-]|]. simpl.
  match goal with
  | |- context [_next_sync throws fuel ?s1] =>
      destruct (_next_sync throws fuel s1) as [r1|] eqn:Hn; [|done];
      apply _next_sync_sound in Hn as ->;
      destruct (_next s1) as [s2 [[]|x]]
  end; by intros [= <-].
Qed.

Lemma run_sync_returns fuel s :
  (length (_queue s) < fuel)%nat -> run_sync throws fuel s = Some (run s).
Proof.
  intros Hlen. unfold run_sync, run. destruct (_runPromise s); [done|]. simpl.
  rewrite _next_sync_returns by done.
  match goal with
  | |- context [_next ?s1] => by destruct (_next s1) as [s2 [[]|x]]
  end.
Qed.

Lemma _runJob_resume_sync_sound fuel a o s s' :
  _runJob_resume_sync throws fuel a o s = Some s' ->
  s' = _runJob_resume a o s.
Proof.
  unfold _runJob_resume_sync, _runJob_resume, _runJob_catch.
  destruct o as [|err]; simpl.
  - match goal with
    | |- context [_next_sync throws fuel ?s1] =>
        destruct (_next_sync throws fuel s1) as [r1|] eqn:Hn; [|done];
        apply _next_sync_sound in Hn as ->
    end. by intros [= <-].
  - destruct (_retry s && negb (job_retried (act_job a))); [|by intros [= <-]].
    match goal with
    | |- context [_next_sync throws fuel ?s1] =>
        destruct (_next_sync throws fuel s1) as [r1|] eqn:Hn; [|done];
        apply _next_sync_sound in Hn as ->
    end. by intros [= <-].
Qed.

Lemma _runJob_resume_sync_returns fuel a o s :
  (S (length (_queue s)) < fuel)%nat ->
  _runJob_resume_sync throws fuel a o s = Some (_runJob_resume a o s).
Proof.
  intros Hlen.
  unfold _runJob_resume_sync, _runJob_resume, _runJob_catch.
  destruct o as [|err]; simpl.
  - by rewrite _next_sync_returns by (simpl; lia).
  - destruct (_retry s && negb (job_retried (act_job a))); [|done].
    by rewrite _next_sync_returns by (simpl; rewrite length_app; simpl; lia).
Qed.

(** With enough fuel a turn of the event loop is the turn of [step]. *)
Lemma step_sync_returns fuel ev s :
  (S (length (_queue s)) < fuel)%nat ->
  step_sync throws fuel ev s = Some (step ev s).
Proof.
  intros Hlen. destruct ev as [key args| |i o]; simpl.
  - by rewrite add_sync_returns.
  - by rewrite run_sync_returns by lia.
  - destruct (inflight s !! i) as [a|]; [|done].
    by rewrite _runJob_resume_sync_returns.
Qed.

Lemma step_sync_sound fuel ev s s' :
  step_sync throws fuel ev s = Some s' -> s' = step ev s.
Proof.
  destruct ev as [key args| |i o]; simpl.
  - rewrite add_sync_returns. by intros [= <-].
  - destruct (run_sync throws fuel s) as [r|] eqn:Hr; [|done].
    apply run_sync_sound in Hr as ->. by intros [= <-].
  - destruct (inflight s !! i) as [a|]; [|by intros [= <-]].
    apply _runJob_resume_sync_sound.
Qed.

Lemma reachable_sync_reachable s : reachable_sync throws s -> reachable s.
Proof.
  induction 1 as [options s Hnew | fuel ev s s' _ IH Hstep].
  - by eapply reachable_new.
  - apply step_sync_sound in Hstep as ->. by apply reachable_step.
Qed.

Lemma reachable_reachable_sync s : reachable s -> reachable_sync throws s.
Proof.
  induction 1 as [options s Hnew | ev s _ IH].
  - by eapply reachable_sync_new.
  - eapply (reachable_sync_step throws (S (S (length (_queue s))))); [done|].
    apply step_sync_returns. lia.
Qed.

(** X3: take a worker that at every call returns a promise, and a state
    reached by turns of the event loop.  Then [run], given fuel for the
    entries waiting, returns a handle: it does not throw.  And no
    [_runJob] call has ended in anything but a failure of [nullthrows]:
    the assertion of [_next] has never failed. *)
Theorem run_never_throws s fuel :
  reachable_sync throws s ->
  (length (_queue s) < fuel)%nat ->
  (exists s' h, run_sync throws fuel s = Some (s', Normal h)) /\
  Forall (fun x => x = NullthrowsError) (unhandled s).
Proof.
  intros Hs%reachable_sync_reachable Hlen. split.
  - rewrite run_sync_returns by done.
    destruct (run_returns s) as [h Hh].
    destruct (run s) as [s' c]. simpl in Hh. subst c. by eexists _, _.
  - by apply reachable_only_nullthrows.
Qed.

End SynchronousFacts.

(** With a worker that throws before it returns a promise, [run] does
    throw.  Retry is off and the worker throws at its first call: [run]
    starts job 1 from the loop of [_next], the [catch] block rejects the
    job and the cycle and resets the queue, and back in [_next] the
    registry is empty and [_deferred] is gone, so the assertion fails. *)
Example run_throws_when_worker_throws :
  let throws (n : nat) : option nat := Some 7%nat in
  let s : qstate := (add 1%nat [] (fresh_queue Infinity false)).1 in
  reachable_sync throws s /\
  snd <$> run_sync throws 3 s = Some (Throw AssertionError) /\
  (heap <$> (fst <$> run_sync throws 3 s)) =
    Some [Rejected 7%nat; Rejected 7%nat].
Proof.
  split; [|by vm_compute].
  eapply (reachable_sync_step _ 1%nat (Add 1%nat [])
            (fresh_queue Infinity false)); [|by vm_compute].
  by apply (reachable_sync_new _
              (Some {| maxConcurrent := None; retry := Some false |})).
Qed.

(** ** Facts about the install queue *)

Section InstallFacts.

Context {TErr : Type}.

#[local] Set Warnings "-clear-no-such-hyp".

Abbreviation mstate := (module_state TErr).
Abbreviation mevent := (module_event TErr).

Implicit Types (st : mstate) (ev : mevent) (m : string).
Implicit Types (modules mods : list string) (r : handle * list string).

Lemma elem_of_foldl_add (X : gset string) mods m :
  m ∈ foldl (fun acc m' => {[m']} ∪ acc) X mods <-> m ∈ mods \/ m ∈ X.
Proof.
  revert X. induction mods as [|m' mods IH]; intros X; simpl.
  - set_solver.
  - rewrite IH. set_solver.
Qed.

Lemma elem_of_foldl_delete (X : gset string) mods m :
  m ∈ foldl (fun acc m' => acc ∖ {[m']}) X mods <-> m ∈ X /\ m ∉ mods.
Proof.
  revert X. induction mods as [|m' mods IH]; intros X; simpl.
  - set_solver.
  - rewrite IH. set_solver.
Qed.

(** What a request does to each part of the state. *)
Lemma request_unfold modules filePath options st :
  let mods := filter (fun m => m ∉ modulesInstalling st) modules in
  let st' := module_step (Request modules filePath options) st in
  arrays st' = S (arrays st) /\
  (mods = [] ->
   queue st' = step Run (queue st) /\
   modulesInstalling st' = modulesInstalling st /\ thens st' = thens st) /\
  (mods ≠ [] ->
   queue st' =
     step Run (step (Add (arrays st, mods) (filePath, options)) (queue st)) /\
   modulesInstalling st' =
     foldl (fun acc m => {[m]} ∪ acc) (modulesInstalling st) mods /\
   thens st' =
     thens st ++
       [((add (arrays st, mods) (filePath, options) (queue st)).2, mods)]).
Proof.
  intros mods st'. unfold st', module_step, _addToInstallQueue. fold mods.
  destruct (decide (mods = [])) as [Hnil | Hsome].
  - rewrite bool_decide_eq_false_2 by (rewrite Hnil; simpl; by intros Hc).
    simpl. destruct (run (queue st)) as [q' c] eqn:Hrun. simpl.
    split; [done|]. split; [done|]. by intros Hne.
  - rewrite bool_decide_eq_true_2 by (by intros ?%nil_length_inv).
    destruct (add (arrays st, mods) (filePath, options) (queue st))
      as [q jobPromise] eqn:Hadd. simpl.
    destruct (run q) as [q' c] eqn:Hrun. simpl.
    split; [done|]. split; [done|]. intros _.
    rewrite Hadd. simpl. by rewrite Hrun.
Qed.

Lemma module_init_fresh st :
  module_init = Normal st ->
  st = {| queue := fresh_queue (Finite 1) false; modulesInstalling := ∅;
          thens := []; arrays := 0 |}.
Proof. unfold module_init. simpl. by intros [= <-]. Qed.

Lemma module_queue_reachable st :
  module_reachable st ->
  reachable (queue st) /\ _maxConcurrent (queue st) = Finite 1.
Proof.
  induction 1 as [st Hinit | ev st _ [IH Hmax]].
  - apply module_init_fresh in Hinit as ->. simpl. split; [|done].
    by apply reachable_fresh_bounded.
  - destruct ev as [modules filePath options | i o | j].
    + destruct (request_unfold modules filePath options st)
        as (_ & Hnone & Hsome).
      destruct (filter _ modules) as [|m mods] eqn:Hf.
      * destruct Hnone as (-> & _); [done|].
        split; [by apply reachable_step | by rewrite step_maxConcurrent].
      * destruct Hsome as (-> & _); [done|].
        split; [by do 2 apply reachable_step
               | by rewrite !step_maxConcurrent].
    + unfold module_step. cbn [queue].
      split; [by apply reachable_step | by rewrite step_maxConcurrent].
    + simpl. destruct (thens st !! j) as [[p mods]|]; [|done].
      by destruct (heap (queue st) !! p) as [[]|].
Qed.

(** X10: the module's queue never has two calls of [install] in flight. *)
Theorem install_queue_is_serial st :
  module_reachable st -> (length (inflight (queue st)) <= 1)%nat.
Proof.
  intros [Hq Hmax]%module_queue_reachable.
  pose proof (reachable_inv _ Hq) as [[Hc Hl _ _ _ _] _ _].
  rewrite Hmax in Hl. simpl in Hl. lia.
Qed.

(** *** Which modules are being installed *)

Lemma filter_none {A} (P : A -> Prop) `{forall x, Decision (P x)} (l : list A) :
  (forall x, x ∈ l -> ~ P x) -> filter P l = [].
Proof.
  intros Hnone. destruct (filter P l) as [|x l'] eqn:Hf; [done|].
  assert (Hx : x ∈ filter P l) by (rewrite Hf; by left).
  apply list_elem_of_filter in Hx as [HP Hx]. by destruct (Hnone x).
Qed.

Lemma claims_inv_request modules filePath options st :
  claims_inv st -> claims_inv (module_step (Request modules filePath options) st).
Proof.
  intros [Hsound Huniq].
  destruct (request_unfold modules filePath options st) as (_ & Hnone & Hsome).
  destruct (decide (filter (fun m => m ∉ modulesInstalling st) modules = []))
    as [Hnil | Hnn].
  - destruct (Hnone Hnil) as (_ & Hmi & Hth).
    unfold claims_inv, claims_of. by rewrite Hmi, Hth.
  - destruct (Hsome Hnn) as (_ & Hmi & Hth). clear Hnone Hsome.
    set (mods := filter (fun m => m ∉ modulesInstalling st) modules) in *.
    unfold claims_inv, claims_of. rewrite Hmi, Hth. split.
    + intros m. rewrite elem_of_foldl_add, Hsound. split.
      * intros [Hm | (r & Hr & Hm)].
        -- eexists. split; [apply elem_of_app; right; by left | done].
        -- exists r. split; [apply elem_of_app; by left | done].
      * intros (r & [Hr | ->%list_elem_of_singleton]%elem_of_app & Hm);
          [right; by exists r | by left].
    + intros m. rewrite filter_app, length_app.
      destruct (decide (m ∈ mods)) as [Hm | Hm].
      * rewrite (filter_none (fun r => m ∈ r.2) (thens st)).
        -- rewrite filter_cons_True by exact Hm. simpl. lia.
        -- intros r Hr Hin. apply list_elem_of_filter in Hm as [Hnew _].
           apply Hnew, Hsound. by exists r.
      * rewrite filter_cons_False by exact Hm. simpl.
        specialize (Huniq m). unfold claims_of in Huniq. lia.
Qed.

Lemma claims_inv_then j st : claims_inv st -> claims_inv (module_step (ThenRuns j) st).
Proof.
  intros [Hsound Huniq]. simpl.
  destruct (thens st !! j) as [[p mods]|] eqn:Hj; [|done].
  destruct (heap (queue st) !! p) as [[| |e]|]; try done.
  pose proof (delete_Permutation _ _ _ Hj) as Hperm.
  assert (Hless : forall m,
             (length (filter (fun r => m ∈ r.2) (delete j (thens st))) +
              (if decide (m ∈ mods) then 1 else 0) <= 1)%nat).
  { intros m. specialize (Huniq m). unfold claims_of in Huniq.
    rewrite Hperm in Huniq. rewrite filter_cons in Huniq. simpl in Huniq.
    destruct (decide (m ∈ mods)); simpl in Huniq; lia. }
  unfold claims_inv, claims_of. simpl. split.
  - intros m. rewrite elem_of_foldl_delete, Hsound. split.
    + intros [(r & Hr & Hm) Hnot]. exists r. split; [|done].
      eapply elem_of_delete_other; [done..|]. by intros ->.
    + intros (r & Hr & Hm). split.
      * exists r. split; [by eapply list_elem_of_delete_inv | done].
      * intros Hin. specialize (Hless m). rewrite decide_True in Hless by done.
        assert (Hrin : r ∈ filter (fun r => m ∈ r.2) (delete j (thens st)))
          by (by apply list_elem_of_filter).
        destruct (filter _ (delete j (thens st))); [by apply elem_of_nil in Hrin|].
        simpl in Hless. lia.
  - intros m. specialize (Hless m). lia.
Qed.

Lemma reachable_claims_inv st : module_reachable st -> claims_inv st.
Proof.
  induction 1 as [st Hinit | ev st _ IH].
  - apply module_init_fresh in Hinit as ->. split; simpl.
    + intros m. split; [set_solver|]. by intros (r & ?%elem_of_nil & _).
    + intros _. lia.
  - destruct ev as [modules filePath options | i o | j].
    + by apply claims_inv_request.
    + done.
    + by apply claims_inv_then.
Qed.

(** X11: a module is in [modulesInstalling] exactly when a [then]
    callback that has not run closes over it, and no module is closed over
    by two such callbacks: two requests still outstanding never hand the
    same module to the queue. *)
Theorem modules_installing_are_claimed_once st m :
  module_reachable st ->
  (m ∈ modulesInstalling st <-> exists r, r ∈ thens st /\ m ∈ r.2) /\
  (length (claims_of m st) <= 1)%nat.
Proof. intros [Hsound Huniq]%reachable_claims_inv. by split. Qed.

(** *** What the worker is asked to install *)

Lemma reachable_entries_ok st :
  module_reachable st -> all_entries (entry_ok (arrays st)) (queue st).
Proof.
  induction 1 as [st Hinit | ev st _ IH].
  - apply module_init_fresh in Hinit as ->. by repeat split.
  - destruct ev as [modules filePath options | i o | j].
    + destruct (request_unfold modules filePath options st)
        as (-> & Hnone & Hsome).
      assert (IH' : all_entries (entry_ok (S (arrays st))) (queue st)).
      { eapply all_entries_impl; [|exact IH]. intros c [? ?]. split; [lia|done]. }
      destruct (decide (filter (fun m => m ∉ modulesInstalling st) modules = []))
        as [Hnil | Hnn].
      * destruct (Hnone Hnil) as (-> & _). by apply all_entries_step.
      * destruct (Hsome Hnn) as (-> & _).
        apply all_entries_step; [|done].
        apply all_entries_step; [done|].
        intros key args [= <- <-]. split; simpl; [lia | done].
    + unfold module_step. cbn [queue arrays]. by apply all_entries_step.
    + simpl. destruct (thens st !! j) as [[p mods]|]; [|done].
      by destruct (heap (queue st) !! p) as [[]|].
Qed.

(** X12: [install] is never called with an empty list of modules. *)
Theorem worker_never_gets_empty_list st key args :
  module_reachable st -> (key, args) ∈ calls (queue st) -> key.2 ≠ [].
Proof.
  intros (_ & Hcalls & _)%reachable_entries_ok Hin.
  by destruct (proj1 (Forall_forall _ _) Hcalls (key, args) Hin).
Qed.

Lemma registry_keys_older st key :
  module_reachable st -> is_Some (_processing (queue st) !! key) ->
  (key.1 < arrays st)%nat.
Proof.
  intros Hst Hkey.
  destruct (reachable_entries_ok st Hst) as (Hq & _ & Hf).
  destruct (module_queue_reachable st Hst) as [Hreach _].
  destruct (registered_jobs_are_at_work_aux _ key Hreach Hkey)
    as [[args Hin] | (a & Hin & <-)].
  - by destruct (proj1 (Forall_forall _ _) Hq _ Hin).
  - by destruct (proj1 (Forall_forall _ _) Hf _ Hin).
Qed.

(** X13: a request with at least one module not yet being installed
    always creates a job, under a promise of its own: its array is a new
    key, so the queue never finds an outstanding job for it.  The job is
    registered for exactly the modules that were not being installed, and
    these are now being installed. *)
Theorem request_registers_new_job modules filePath options st :
  module_reachable st ->
  let mods := filter (fun m => m ∉ modulesInstalling st) modules in
  let st' := module_step (Request modules filePath options) st in
  let p := length (heap (queue st)) in
  mods ≠ [] ->
  _processing (queue st) !! (arrays st, mods) = None /\
  _processing (queue st') =
    <[(arrays st, mods) :=
        {| job_deferred := p; job_promise := p; job_retried := false |}]>
      (_processing (queue st)) /\
  thens st' = thens st ++ [(p, mods)] /\
  (forall m, m ∈ modulesInstalling st' <-> m ∈ mods \/ m ∈ modulesInstalling st).
Proof.
  intros Hst mods st' p Hnn.
  destruct (request_unfold modules filePath options st) as (_ & _ & Hsome).
  destruct (Hsome Hnn) as (Hq & Hmi & Hth). clear Hsome.
  fold mods st' in Hq, Hmi, Hth.
  assert (Hnew : _processing (queue st) !! (arrays st, mods) = None).
  { destruct (_processing (queue st) !! (arrays st, mods)) eqn:Hk; [|done].
    pose proof (registry_keys_older st (arrays st, mods) Hst) as Hlt.
    rewrite Hk in Hlt. simpl in Hlt. specialize (Hlt ltac:(by eexists)). lia. }
  destruct (add_starts_or_queues_aux (queue st) (arrays st, mods)
              (filePath, options) Hnew) as (Hret & Hreg).
  split; [done|]. split; [|split].
  - rewrite Hq. change (step Run ?s) with (run s).1.
    rewrite run_registry_live; change (step (Add ?k ?a) ?s) with (add k a s).1;
      rewrite Hreg; [done|]. apply insert_non_empty.
  - by rewrite Hth, Hret.
  - intros m. by rewrite Hmi, elem_of_foldl_add.
Qed.

(** *** After a failed install *)

Lemma module_heap_mono ev st :
  store_le (heap (queue st)) (heap (queue (module_step ev st))).
Proof.
  destruct ev as [modules filePath options | i o | j].
  - destruct (request_unfold modules filePath options st) as (_ & Hnone & Hsome).
    destruct (decide (filter (fun m => m ∉ modulesInstalling st) modules = []))
      as [Hnil | Hnn].
    + destruct (Hnone Hnil) as (-> & _). apply step_heap_mono.
    + destruct (Hsome Hnn) as (-> & _).
      eapply store_le_trans; apply step_heap_mono.
  - unfold module_step. cbn [queue]. apply step_heap_mono.
  - simpl. destruct (thens st !! j) as [[p mods]|]; [|apply store_le_refl].
    destruct (heap (queue st) !! p) as [[]|]; apply store_le_refl.
Qed.

Lemma rejected_then_stays ev st r err :
  r ∈ thens st -> heap (queue st) !! r.1 = Some (Rejected err) ->
  r ∈ thens (module_step ev st) /\
  heap (queue (module_step ev st)) !! r.1 = Some (Rejected err).
Proof.
  intros Hr Hrej. split; [|by apply (module_heap_mono ev st)].
  destruct ev as [modules filePath options | i o | j].
  - destruct (request_unfold modules filePath options st) as (_ & Hnone & Hsome).
    destruct (decide (filter (fun m => m ∉ modulesInstalling st) modules = []))
      as [Hnil | Hnn].
    + destruct (Hnone Hnil) as (_ & _ & ->). done.
    + destruct (Hsome Hnn) as (_ & _ & ->). apply elem_of_app. by left.
  - done.
  - simpl. destruct (thens st !! j) as [[p mods]|] eqn:Hj; [|done].
    destruct (heap (queue st) !! p) as [[| |e]|] eqn:Hp; try done. simpl.
    eapply elem_of_delete_other; [done..|]. intros ->. simpl in Hrej.
    congruence.
Qed.

Lemma module_exec_reachable evs st :
  module_reachable st -> module_reachable (module_exec evs st).
Proof.
  revert st. induction evs as [|ev evs IH]; intros st Hst; simpl; [done|].
  by apply IH, module_reachable_step.
Qed.

(** X14: once the promise of a request's job is rejected, the modules of
    that request stay in [modulesInstalling] whatever happens afterwards:
    every later request for them is filtered out, and the worker is not
    asked to install them again. *)
Theorem failed_modules_stay_installing st r err evs m :
  module_reachable st ->
  r ∈ thens st -> heap (queue st) !! r.1 = Some (Rejected err) -> m ∈ r.2 ->
  m ∈ modulesInstalling (module_exec evs st) /\
  filter (fun m' => m' ∉ modulesInstalling (module_exec evs st)) [m] = [].
Proof.
  intros Hst Hr Hrej Hm.
  assert (Hin : m ∈ modulesInstalling (module_exec evs st)).
  { assert (Hstay : r ∈ thens (module_exec evs st)).
    { clear Hst. revert st Hr Hrej.
      induction evs as [|ev evs IH]; intros st Hr Hrej; simpl; [done|].
      destruct (rejected_then_stays ev st r err Hr Hrej) as [Hr' Hrej'].
      by apply IH. }
    apply (reachable_claims_inv _ (module_exec_reachable evs st Hst)).
    by exists r. }
  split; [done|]. by rewrite filter_cons_False by (by intros Hnot).
Qed.

End InstallFacts.

(** ** The further theorems at concrete queues *)

Lemma no_idle_slot_while_active_witness :
  _queue one_running_one_pending = [] \/
  num_lt (_numRunning one_running_one_pending)
         (_maxConcurrent one_running_one_pending) = false.
Proof.
  apply (no_idle_slot_while_active one_running_one_pending).
  - apply exec_reachable, reachable_fresh_bounded. lia.
  - exists 2%nat. by vm_compute.
Defined.


Lemma run_never_throws_witness :
  (exists s' h,
      run_sync (fun _ : nat => @None nat) 2 after_terminal_failure =
        Some (s', Normal h)) /\
  Forall (fun x => x = NullthrowsError) (unhandled after_terminal_failure).
Proof.
  apply (run_never_throws (fun _ : nat => @None nat) (fun _ => eq_refl)
           after_terminal_failure 2).
  - apply reachable_reachable_sync; [done|].
    apply reachable_step, exec_reachable, reachable_fresh_bounded. lia.
  - vm_compute. lia.
Defined.

Lemma handles_settle_for_cause_witness :
  _deferred two_running = Some 0%nat \/
  exists i a, (Settle 0 Resolves : qevent) = Settle i Resolves /\
              inflight two_running !! i = Some a /\
              job_deferred (act_job a) = 0%nat.
Proof.
  apply (handles_settle_for_cause two_running (Settle 0 Resolves) 0%nat);
    by vm_compute.
Defined.

Lemma registered_jobs_are_at_work_witness :
  (exists args, (2%nat, args) ∈ _queue one_running_one_pending) \/
  (exists a, a ∈ inflight one_running_one_pending /\ act_key a = 2%nat).
Proof.
  apply (registered_jobs_are_at_work one_running_one_pending 2%nat).
  - apply exec_reachable, reachable_fresh_bounded. lia.
  - eexists. by vm_compute.
Defined.

Lemma cycle_completes_when_workers_succeed_witness :
  heap (exec (resolutions [1; 0]%nat) two_running) !! 2%nat = Some Fulfilled.
Proof.
  apply (cycle_completes_when_workers_succeed two_running 2%nat [1; 0]%nat).
  - apply exec_reachable, reachable_fresh_unbounded.
  - by vm_compute.
  - by vm_compute.
  - by vm_compute.
Defined.

Lemma pending_entries_registered_without_failure_witness :
  (forall k args, (k, args) ∈ _queue one_running_one_pending ->
                  is_Some (_processing one_running_one_pending !! k)) /\
  (forall a, a ∈ inflight one_running_one_pending ->
             _processing one_running_one_pending !! act_key a =
               Some (act_job a)) /\
  NoDup ((_queue one_running_one_pending).*1 ++
         (act_key <$> inflight one_running_one_pending)) /\
  unhandled one_running_one_pending = [].
Proof.
  apply (pending_entries_registered_without_failure one_running_one_pending).
  unfold one_running_one_pending, exec. cbn [foldl].
  apply clean_step; [|by vm_compute].
  apply clean_step; [|by vm_compute].
  apply clean_step; [|by vm_compute].
  apply (clean_new (Some {| maxConcurrent := Some 1; retry := Some false |})).
  by vm_compute.
Defined.

Lemma cycle_end_without_failure_clears_all_witness :
  _queue (step (Settle 0 Resolves) one_running_retrying) = [] /\
  inflight (step (Settle 0 Resolves) one_running_retrying) = [] /\
  _processing (step (Settle 0 Resolves) one_running_retrying) = ∅ /\
  _numRunning (step (Settle 0 Resolves) one_running_retrying) = 0 /\
  _deferred (step (Settle 0 Resolves) one_running_retrying) = None /\
  heap (step (Settle 0 Resolves) one_running_retrying) !! 1%nat =
    Some Fulfilled.
Proof.
  apply (cycle_end_without_failure_clears_all one_running_retrying
           (Settle 0 Resolves) 1%nat).
  - unfold one_running_retrying, exec. cbn [foldl].
    apply clean_step; [|by vm_compute].
    apply clean_step; [|by vm_compute].
    apply (clean_new (Some {| maxConcurrent := None; retry := None |})).
    by vm_compute.
  - by vm_compute.
  - by vm_compute.
  - by vm_compute.
Defined.

Lemma worker_called_with_added_entries_witness :
  Add 1%nat [] ∈ ([Add 1%nat []; Add 2%nat []; Run] : list qevent).
Proof.
  apply (worker_called_with_added_entries
           (Some {| maxConcurrent := Some 1; retry := Some false |})
           (fresh_queue (Finite 1) false)).
  - by vm_compute.
  - vm_compute. by left.
Defined.

Lemma install_queue_is_serial_witness :
  (length (inflight (queue two_requests)) <= 1)%nat.
Proof.
  apply (install_queue_is_serial two_requests).
  apply module_exec_reachable, module_reachable_init. by vm_compute.
Defined.

Lemma modules_installing_are_claimed_once_witness :
  ("a"%string ∈ modulesInstalling two_requests <->
   exists r, r ∈ thens two_requests /\ "a"%string ∈ r.2) /\
  (length (claims_of "a"%string two_requests) <= 1)%nat.
Proof.
  apply (modules_installing_are_claimed_once two_requests "a"%string).
  apply module_exec_reachable, module_reachable_init. by vm_compute.
Defined.

Lemma worker_never_gets_empty_list_witness :
  ((0%nat, ["a"%string]) : ModuleArray).2 ≠ [].
Proof.
  apply (worker_never_gets_empty_list two_requests (0%nat, ["a"%string])
           ("/app/index.js"%string, None)).
  - apply module_exec_reachable, module_reachable_init. by vm_compute.
  - vm_compute. by left.
Defined.

Lemma request_registers_new_job_witness :
  thens (module_step (Request ["a"%string; "c"%string] "/app/lib.js"%string None)
           two_requests) =
    thens two_requests ++ [(3%nat, ["c"%string])].
Proof.
  destruct (request_registers_new_job ["a"%string; "c"%string]
              "/app/lib.js"%string None two_requests)
    as (_ & _ & Hthens & _).
  - apply module_exec_reachable, module_reachable_init. by vm_compute.
  - by vm_compute.
  - rewrite Hthens. by vm_compute.
Defined.

Lemma failed_modules_stay_installing_witness :
  "a"%string ∈
    modulesInstalling
      (module_exec [Request ["a"%string] "/app/lib.js"%string None;
                    ThenRuns 0]
         failed_request) /\
  filter (fun m' => m' ∉
            modulesInstalling
              (module_exec [Request ["a"%string] "/app/lib.js"%string None;
                            ThenRuns 0]
                 failed_request)) ["a"%string] = [].
Proof.
  apply (failed_modules_stay_installing failed_request
           (0%nat, ["a"%string]) 7%nat).
  - apply module_exec_reachable, module_reachable_init. by vm_compute.
  - vm_compute. by left.
  - by vm_compute.
  - by left.
Defined.

Lemma job_promise_fulfilled_when_processed_witness :
  heap one_running_one_pending !! 0%nat = Some Pending /\
  heap (step (Settle 0 Resolves) one_running_one_pending) !! 0%nat =
    Some Fulfilled /\
  _processing (step (Settle 0 Resolves) one_running_one_pending) !! 1%nat =
    None.
Proof.
  apply (proj2 (job_promise_fulfilled_when_processed one_running_one_pending
                  ltac:(unfold one_running_one_pending, exec; cbn [foldl];
                        apply clean_step; [|by vm_compute];
                        apply clean_step; [|by vm_compute];
                        apply clean_step; [|by vm_compute];
                        apply (clean_new
                                 (Some {| maxConcurrent := Some 1;
                                          retry := Some false |}));
                        by vm_compute))
          0%nat
          {| act_key := 1%nat; act_args := [];
             act_job := {| job_deferred := 0; job_promise := 0;
                           job_retried := false |} |}).
  by vm_compute.
Defined.

Lemma first_failure_requeues_job_witness :
  _processing (step (Settle 0 (Rejects 7%nat)) one_running_retrying) !! 1%nat =
    Some {| job_deferred := 0; job_promise := 0; job_retried := true |} /\
  heap (step (Settle 0 (Rejects 7%nat)) one_running_retrying) =
    heap one_running_retrying /\
  (exists admitted,
      _queue one_running_retrying ++ [(1%nat, [])] =
      admitted ++ _queue (step (Settle 0 (Rejects 7%nat)) one_running_retrying)) /\
  terminal (Settle 0 (Rejects 7%nat)) one_running_retrying = false.
Proof.
  apply (first_failure_requeues_job one_running_retrying 0%nat
           {| act_key := 1%nat; act_args := [];
              act_job := {| job_deferred := 0; job_promise := 0;
                            job_retried := false |} |} 7%nat);
    by vm_compute.
Defined.

Lemma add_returns_creating_handle_witness :
  add 1%nat [5%nat]
    (exec [Add 2%nat []; Run; Settle 0 (Rejects 7%nat)]
       (add 1%nat [] (fresh_queue Infinity true : qstate)).1) =
  (exec [Add 2%nat []; Run; Settle 0 (Rejects 7%nat)]
     (add 1%nat [] (fresh_queue Infinity true : qstate)).1, 0%nat).
Proof.
  apply (add_returns_creating_handle (fresh_queue Infinity true : qstate)
           1%nat [] [5%nat] [Add 2%nat []; Run; Settle 0 (Rejects 7%nat)]).
  - by apply (clean_new (Some {| maxConcurrent := None; retry := None |})).
  - by vm_compute.
  - by vm_compute.
  - intros [|[|[|[|n]]]]; vm_compute; by eexists.
Defined.
